(** * Custom containers: [cc::buffer] and [cc::fifo]

    A shallow embedding of the two fixed-capacity containers of the
    repository (include/cc/buffer.hxx and include/cc/fifo.hxx) together with
    the properties their specification states about them.

    Conventions of the embedding:
    - [std::size_t] is a 64-bit unsigned integer: a [Z] in [0, 2^64) whose
      arithmetic wraps around ([wrap]);
    - the inherited [std::array<Tp, Nm>] is a [list T] of [Nm] slots, read
      with stdpp's lookup and written with stdpp's insert;
    - a member function returns an [outcome]: it returns a value and leaves
      the object in a new state, or it throws [std::out_of_range] and leaves
      the object in the state it had at the throw, or its behaviour is
      undefined (an access outside the array through [operator[]] or a raw
      pointer). *)

From Stdlib Require Import ZArith Lia.
From stdpp Require Import base numbers list.

Local Open Scope Z_scope.

(** ** Machine integers *)

Definition size_t_modulus : Z := 2 ^ 64.

(** The value a [std::size_t] expression takes after wrap-around. *)
Definition wrap (z : Z) : Z := z mod size_t_modulus.

(** A [Z] that is a [std::size_t] value. *)
Definition is_size_t (z : Z) : Prop := 0 <= z < size_t_modulus.

(** ** Outcomes of a member function *)

Inductive outcome (St A : Type) : Type :=
| Ret (a : A) (s : St)
| OutOfRange (s : St)
| Undefined.

Arguments Ret {St A} a s.
Arguments OutOfRange {St A} s.
Arguments Undefined {St A}.

(** ** Raw array accesses *)

Section RawArray.
Context {T : Type}.

(** [a[i]] read through [operator[]]: no bounds check, so an index outside
    the array has no defined result. *)
Definition array_get (a : list T) (i : Z) : option T :=
  if 0 <=? i then a !! Z.to_nat i else None.

(** [a[i] = v] through [operator[]]. *)
Definition array_set (a : list T) (i : Z) (v : T) : option (list T) :=
  if (0 <=? i) && (i <? Z.of_nat (length a))
  then Some (<[Z.to_nat i := v]> a) else None.

(** [std::copy(src, src + |vs|, a.data() + i)]. *)
Definition copy_in (vs : list T) (i : Z) (a : list T) : option (list T) :=
  if (0 <=? i) && (i + Z.of_nat (length vs) <=? Z.of_nat (length a))
  then Some (list_inserts (Z.to_nat i) vs a) else None.

(** [std::copy(a.data() + i, a.data() + i + n, dst)]: the [n] values
    written to [dst]. *)
Definition copy_out (a : list T) (i n : Z) : option (list T) :=
  if (0 <=? i) && (0 <=? n) && (i + n <=? Z.of_nat (length a))
  then Some (take (Z.to_nat n) (drop (Z.to_nat i) a)) else None.

(** [std::fill_n(a.begin(), count, v)]; a count above the number of slots
    writes outside the array. *)
Definition fill_n (a : list T) (count : Z) (v : T) : option (list T) :=
  if count <=? Z.of_nat (length a)
  then Some (replicate (Z.to_nat count) v ++ drop (Z.to_nat count) a)
  else None.

(** The physical slot of position [k] of a ring of [len] slots, for a
    position that is less than one turn past the end. *)
Definition slot (len k : nat) : nat :=
  if decide (k < len)%nat then k else (k - len)%nat.

(** [d] consecutive slots of the ring [a] from slot [t] on, continuing at
    slot 0 after the last one. *)
Definition window (a : list T) (t d : nat) : list T :=
  take d (drop t (a ++ a)).
End RawArray.

(** ** [cc::buffer<Tp, Nm>] (include/cc/buffer.hxx) *)

Module Buffer.
Section Buffer.
Context {T : Type}.
Variable Nm : Z.

Record buffer : Type := mk_buffer { elems : list T; m_used : Z }.

(** A buffer object has exactly [Nm] slots and a [size_t] counter. *)
Definition wf (b : buffer) : Prop :=
  Z.of_nat (length (elems b)) = Nm /\ is_size_t (m_used b).

(** The constructor sets [m_used] to 0 and leaves the array as it is. *)
Definition buffer_new (a : list T) : buffer :=
  {| elems := a; m_used := 0 |}.

Definition max_size (b : buffer) : Z := Nm.

Definition reset (n : Z) (b : buffer) : buffer :=
  {| elems := elems b; m_used := n |}.

Definition size (b : buffer) : Z := m_used b.

Definition empty (b : buffer) : bool := size b =? 0.

Definition free (b : buffer) : Z := wrap (max_size b - m_used b).

(** [std::array::at]: throws when [n >= Nm]. *)
Definition at_ (n : Z) (b : buffer) : outcome buffer T :=
  if Nm <=? n then OutOfRange b
  else match array_get (elems b) n with
       | Some x => Ret x b
       | None => Undefined
       end.

Definition get (n : Z) (b : buffer) : outcome buffer T :=
  if m_used b <? n then OutOfRange b else at_ n b.

Definition assign (n : Z) (v : T) (b : buffer) : outcome buffer unit :=
  if Nm <=? n then OutOfRange b
  else match array_set (elems b) n v with
       | Some a =>
           Ret tt {| elems := a; m_used := Z.max (m_used b) (wrap (n + 1)) |}
       | None => Undefined
       end.

Definition push_back (v : T) (b : buffer) : outcome buffer unit :=
  if Nm <=? m_used b then OutOfRange b
  else match array_set (elems b) (m_used b) v with
       | Some a => Ret tt {| elems := a; m_used := wrap (m_used b + 1) |}
       | None => Undefined
       end.

Definition pop_back (b : buffer) : outcome buffer T :=
  if m_used b =? 0 then OutOfRange b
  else match at_ (wrap (m_used b - 1)) b with
       | Ret v _ => Ret v {| elems := elems b; m_used := wrap (m_used b - 1) |}
       | o => o
       end.
(** [operator[]] inherited from [std::array]: blind to [m_used]. *)
Definition subscript (n : Z) (b : buffer) : option T := array_get (elems b) n.

Definition fill_used (v : T) (b : buffer) : outcome buffer unit :=
  match fill_n (elems b) (m_used b) v with
  | Some a => Ret tt {| elems := a; m_used := m_used b |}
  | None => Undefined
  end.

Definition fill_all (v : T) (b : buffer) : outcome buffer unit :=
  let used := max_size b in
  match fill_n (elems b) used v with
  | Some a => Ret tt {| elems := a; m_used := used |}
  | None => Undefined
  end.

(** [for (auto& v : buffer)]: the values between the inherited [begin()]
    and the buffer's own [end()], which is [data() + m_used]. *)
Definition iterate (b : buffer) : option (list T) :=
  copy_out (elems b) 0 (m_used b).

(** *** Calls on a buffer object *)

Inductive call : Type :=
| Reset (n : Z)
| Get (n : Z)
| Assign (n : Z) (v : T)
| PushBack (v : T)
| PopBack
| FillUsed (v : T)
| FillAll (v : T).

Inductive value : Type :=
| VUnit
| VElem (x : T).

Definition omap_ret {A B} (f : A -> B) (o : outcome buffer A)
  : outcome buffer B :=
  match o with
  | Ret a b => Ret (f a) b
  | OutOfRange b => OutOfRange b
  | Undefined => Undefined
  end.

Definition exec (c : call) (b : buffer) : outcome buffer value :=
  match c with
  | Reset n => Ret VUnit (reset n b)
  | Get n => omap_ret VElem (get n b)
  | Assign n v => omap_ret (fun _ => VUnit) (assign n v b)
  | PushBack v => omap_ret (fun _ => VUnit) (push_back v b)
  | PopBack => omap_ret VElem (pop_back b)
  | FillUsed v => omap_ret (fun _ => VUnit) (fill_used v b)
  | FillAll v => omap_ret (fun _ => VUnit) (fill_all v b)
  end.

Fixpoint run (cs : list call) (b : buffer) : outcome buffer (list value) :=
  match cs with
  | [] => Ret [] b
  | c :: cs' =>
      match exec c b with
      | Ret v b' => omap_ret (cons v) (run cs' b')
      | OutOfRange b' => OutOfRange b'
      | Undefined => Undefined
      end
  end.

(** A call that does not force the size above the capacity: [reset(n)] takes
    any [n], and keeping it within [Nm] is left to the caller. *)
Definition within_capacity (c : call) : bool :=
  match c with
  | Reset n => (0 <=? n) && (n <=? Nm)
  | _ => true
  end.

Inductive reachable : buffer -> Prop :=
| reach_new a : Z.of_nat (length a) = Nm -> reachable (buffer_new a)
| reach_call b c v b' :
    reachable b -> within_capacity c = true ->
    exec c b = Ret v b' -> reachable b'.

(** The buffer invariant: [Nm] slots and a size in [0, Nm]. *)
Definition bounded (b : buffer) : Prop :=
  Z.of_nat (length (elems b)) = Nm /\ 0 <= m_used b <= Nm.
End Buffer.
End Buffer.

(** ** [cc::fifo<Tp, Nm>] (include/cc/fifo.hxx) *)

Module Fifo.
Section Fifo.
Context {T : Type}.
Variable Nm : Z.

(** The nested [iterator] is a counter [m_index] next to a pointer to the
    fifo's own array; a cursor is modelled by its [m_index], and
    dereferencing it reduces the counter modulo [Nm]. *)
Definition deref (a : list T) (m_index : Z) : option T :=
  array_get a (m_index mod Nm).

Record fifo : Type := mk_fifo { elems : list T; m_head : Z; m_tail : Z }.

(** A fifo object has exactly [Nm] slots and two [size_t] cursors. *)
Definition wf (s : fifo) : Prop :=
  Z.of_nat (length (elems s)) = Nm /\
  is_size_t (m_head s) /\ is_size_t (m_tail s).

(** The constructor sets both cursors to 0 and leaves the array as it is. *)
Definition fifo_new (a : list T) : fifo :=
  {| elems := a; m_head := 0; m_tail := 0 |}.

Definition max_size (s : fifo) : Z := Nm.

Definition clear (s : fifo) : fifo :=
  {| elems := elems s; m_head := 0; m_tail := 0 |}.

Definition size (s : fifo) : Z := wrap (m_head s - m_tail s).

Definition empty (s : fifo) : bool := m_head s =? m_tail s.

Definition free (s : fifo) : Z := wrap (max_size s - size s).

Definition full (s : fifo) : bool :=
  m_head s =? wrap (m_tail s + max_size s).

(** [m_head % max_size()]; with [Nm = 0] the C++ expression divides by
    zero, and every statement below is about [0 < Nm]. *)
Definition head_modulo (s : fifo) : Z := m_head s mod max_size s.

Definition increment_tail (incr : Z) (s : fifo) : fifo :=
  let t := wrap (m_tail s + incr) in
  if max_size s <=? t
  then {| elems := elems s;
          m_head := wrap (m_head s - max_size s);
          m_tail := wrap (t - max_size s) |}
  else {| elems := elems s; m_head := m_head s; m_tail := t |}.

Definition push (v : T) (s : fifo) : outcome fifo unit :=
  if full s then OutOfRange s
  else match array_set (elems s) (head_modulo s) v with
       | Some a =>
           Ret tt {| elems := a;
                     m_head := wrap (m_head s + 1);
                     m_tail := m_tail s |}
       | None => Undefined
       end.

Definition pop (s : fifo) : outcome fifo T :=
  if empty s then OutOfRange s
  else match array_get (elems s) (m_tail s) with
       | Some v => Ret v (increment_tail 1 s)
       | None => Undefined
       end.

(** [push_list(other_begin, other_end)]; the source range is the list
    [vs]. *)
Definition push_list (vs : list T) (s : fifo) : outcome fifo unit :=
  let n := Z.of_nat (length vs) in
  if free s <? n then OutOfRange s
  else
    let n1 := Z.min n (wrap (max_size s - head_modulo s)) in
    match copy_in (take (Z.to_nat n1) vs) (head_modulo s) (elems s) with
    | Some a1 =>
        match copy_in (drop (Z.to_nat n1) vs) 0 a1 with
        | Some a2 =>
            Ret tt {| elems := a2;
                      m_head := wrap (m_head s + n);
                      m_tail := m_tail s |}
        | None => Undefined
        end
    | None => Undefined
    end.

(** [pop_list(other_begin, n)]; the result is the sequence of values
    written to [other_begin[0 .. n)]. *)
Definition pop_list (n : Z) (s : fifo) : outcome fifo (list T) :=
  if (0 <? n) && (size s <? n) then OutOfRange s
  else
    let n := if n =? 0 then size s else n in
    let n1 := Z.min n (wrap (max_size s - m_tail s)) in
    match copy_out (elems s) (m_tail s) n1 with
    | Some o1 =>
        let n2 := wrap (n - n1) in
        match copy_out (elems s) 0 n2 with
        | Some o2 => Ret (o1 ++ o2) (increment_tail n s)
        | None => Undefined
        end
    | None => Undefined
    end.

Definition begin (s : fifo) : outcome fifo Z := Ret (m_tail s) s.

Definition end_ (s : fifo) : outcome fifo Z :=
  Ret (m_head s)
      {| elems := elems s;
         m_head := m_head s;
         m_tail := wrap (m_tail s + size s) |}.

(** The second [fifo] class of the header: plain [size_t] cursors and a
    [pop] that resets the tail to 0 instead of subtracting [Nm]. *)
Definition pop_B (s : fifo) : outcome fifo T :=
  if empty s then OutOfRange s
  else match array_get (elems s) (m_tail s) with
       | Some v =>
           let t := wrap (m_tail s + 1) in
           Ret v (if max_size s <=? t
                  then {| elems := elems s;
                          m_head := wrap (m_head s - max_size s);
                          m_tail := 0 |}
                  else {| elems := elems s; m_head := m_head s; m_tail := t |})
       | None => Undefined
       end.

(** The loop of a range-based [for] from cursor [i]: [n] rounds of
    [operator*] and [operator++]. *)
Fixpoint visit (a : list T) (i : Z) (n : nat) : list (option T) :=
  match n with
  | O => []
  | S n' => deref a i :: visit a (wrap (i + 1)) n'
  end.

(** [for (auto& v : fifo)]: [begin()] is evaluated first, then [end()],
    then the loop runs until the two cursors are equal. *)
Definition range_for (s : fifo) : list (option T) * fifo :=
  match begin s with
  | Ret b s1 =>
      match end_ s1 with
      | Ret e s2 => (visit (elems s2) b (Z.to_nat (wrap (e - b))), s2)
      | _ => ([], s1)
      end
  | _ => ([], s)
  end.

(** *** Public calls and reachable states *)

Inductive call : Type :=
| Clear
| Push (v : T)
| Pop
| PushList (vs : list T)
| PopList (n : Z)
| Begin
| End_.

Inductive value : Type :=
| VUnit
| VElem (x : T)
| VList (l : list T)
| VIter (i : Z).

Definition omap_ret {A B} (f : A -> B) (o : outcome fifo A) : outcome fifo B :=
  match o with
  | Ret a s => Ret (f a) s
  | OutOfRange s => OutOfRange s
  | Undefined => Undefined
  end.

Definition exec (c : call) (s : fifo) : outcome fifo value :=
  match c with
  | Clear => Ret VUnit (clear s)
  | Push v => omap_ret (fun _ => VUnit) (push v s)
  | Pop => omap_ret VElem (pop s)
  | PushList vs => omap_ret (fun _ => VUnit) (push_list vs s)
  | PopList n => omap_ret VList (pop_list n s)
  | Begin => omap_ret VIter (begin s)
  | End_ => omap_ret VIter (end_ s)
  end.

(** A sequence of calls; an exception that is thrown ends it. *)
Fixpoint run (cs : list call) (s : fifo) : outcome fifo (list value) :=
  match cs with
  | [] => Ret [] s
  | c :: cs' =>
      match exec c s with
      | Ret v s' => omap_ret (cons v) (run cs' s')
      | OutOfRange s' => OutOfRange s'
      | Undefined => Undefined
      end
  end.

(** The states a fifo object goes through when only calls that satisfy
    [allowed] are made on it. *)
Inductive reachable_via (allowed : call -> bool) : fifo -> Prop :=
| reach_new a :
    Z.of_nat (length a) = Nm -> reachable_via allowed (fifo_new a)
| reach_call s c v s' :
    reachable_via allowed s -> allowed c = true ->
    exec c s = Ret v s' -> reachable_via allowed s'.

Definition reachable : fifo -> Prop := reachable_via (fun _ => true).

(** Every call but [end()], the one call that moves the tail without
    [increment_tail]. *)
Definition queue_call (c : call) : bool :=
  match c with End_ => false | _ => true end.

(** *** The queue a fifo holds *)

(** The live elements, oldest first: [size] slots starting at the tail
    and continuing at slot 0 after the last slot. *)
Definition contents (s : fifo) : list T :=
  window (elems s) (Z.to_nat (m_tail s)) (Z.to_nat (size s)).

(** The class invariant the source comments describe: the tail is below
    [Nm] and the head is at most [Nm] ahead of it. *)
Definition normal (s : fifo) : Prop :=
  Z.of_nat (length (elems s)) = Nm /\
  0 <= m_tail s < Nm /\
  m_tail s <= m_head s <= m_tail s + Nm.

(** What every public call keeps: a well-formed object whose size is at
    most the capacity. *)
Definition sized (s : fifo) : Prop := wf s /\ size s <= Nm.

(** *** Push and pop sequences *)

Definition push_or_pop (c : call) : bool :=
  match c with Push _ | Pop => true | _ => false end.

Fixpoint pushed (cs : list call) : list T :=
  match cs with
  | [] => []
  | Push v :: cs' => v :: pushed cs'
  | _ :: cs' => pushed cs'
  end.

Fixpoint pops (cs : list call) : nat :=
  match cs with
  | [] => O
  | Pop :: cs' => S (pops cs')
  | _ :: cs' => pops cs'
  end.

Fixpoint popped (vs : list value) : list T :=
  match vs with
  | [] => []
  | VElem x :: vs' => x :: popped vs'
  | _ :: vs' => popped vs'
  end.

(** A push and pop sequence that never pushes on [Nm] elements and never
    pops from none, started on [n] elements. *)
Fixpoint admissible (n : Z) (cs : list call) : bool :=
  match cs with
  | [] => true
  | Push _ :: cs' => (n <? Nm) && admissible (n + 1) cs'
  | Pop :: cs' => (0 <? n) && admissible (n - 1) cs'
  | _ :: _ => false
  end.
(** *** The second [fifo] class of the header *)

Definition truncate (s : fifo) : fifo :=
  {| elems := elems s; m_head := 0; m_tail := 0 |}.

Definition push_B (v : T) (s : fifo) : outcome fifo unit :=
  if full s then OutOfRange s
  else
    let head_real := m_head s mod max_size s in
    match array_set (elems s) head_real v with
    | Some a =>
        Ret tt {| elems := a;
                  m_head := wrap (m_head s + 1);
                  m_tail := m_tail s |}
    | None => Undefined
    end.

(** Its [push_list] has an empty body. *)
Definition push_list_B (vs : list T) (s : fifo) : outcome fifo unit :=
  Ret tt s.

Inductive call_B : Type :=
| TruncateB
| PushB (v : T)
| PopB
| PushListB (vs : list T).

Definition exec_B (c : call_B) (s : fifo) : outcome fifo value :=
  match c with
  | TruncateB => Ret VUnit (truncate s)
  | PushB v => omap_ret (fun _ => VUnit) (push_B v s)
  | PopB => omap_ret VElem (pop_B s)
  | PushListB vs => omap_ret (fun _ => VUnit) (push_list_B vs s)
  end.

Fixpoint run_B (cs : list call_B) (s : fifo) : outcome fifo (list value) :=
  match cs with
  | [] => Ret [] s
  | c :: cs' =>
      match exec_B c s with
      | Ret v s' => omap_ret (cons v) (run_B cs' s')
      | OutOfRange s' => OutOfRange s'
      | Undefined => Undefined
      end
  end.

(** The call of the first class with the same name ([truncate] is its
    [clear]). *)
Definition as_first (c : call_B) : call :=
  match c with
  | TruncateB => Clear
  | PushB v => Push v
  | PopB => Pop
  | PushListB vs => PushList vs
  end.

Definition implemented_B (c : call_B) : bool :=
  match c with PushListB _ => false | _ => true end.

(** *** The bounded queue the fifo implements *)

(** The calls that enqueue and dequeue, with a count that is a
    [size_t]. *)
Definition bulk_call (c : call) : bool :=
  match c with
  | Clear | Push _ | Pop | PushList _ => true
  | PopList n => 0 <=? n
  | Begin | End_ => false
  end.

(** One call on a queue of at most [Nm] elements kept as a list, oldest
    first; [None] stands for OutOfRange. *)
Definition queue_exec (c : call) (q : list T) : option (value * list T) :=
  match c with
  | Clear => Some (VUnit, [])
  | Push v =>
      if Z.of_nat (length q) <? Nm then Some (VUnit, q ++ [v]) else None
  | Pop =>
      match q with
      | x :: q' => Some (VElem x, q')
      | [] => None
      end
  | PushList vs =>
      if Z.of_nat (length vs) <=? Nm - Z.of_nat (length q)
      then Some (VUnit, q ++ vs) else None
  | PopList n =>
      if Z.of_nat (length q) <? n then None
      else
        let m := if n =? 0 then length q else Z.to_nat n in
        Some (VList (take m q), drop m q)
  | Begin | End_ => None
  end.

Fixpoint queue_run (cs : list call) (q : list T)
  : option (list value * list T) :=
  match cs with
  | [] => Some ([], q)
  | c :: cs' =>
      match queue_exec c q with
      | Some (v, q') =>
          match queue_run cs' q' with
          | Some (vs, q'') => Some (v :: vs, q'')
          | None => None
          end
      | None => None
      end
  end.
End Fifo.
End Fifo.

(** * Properties *)

(** ** Arithmetic of [std::size_t] *)

Ltac wrap_lia :=
  unfold wrap, is_size_t, size_t_modulus in *;
  change (2 ^ 64) with 18446744073709551616 in *;
  change (2 ^ 63) with 9223372036854775808 in *;
  Z.div_mod_to_equations; lia.

Lemma wrap_small z : is_size_t z -> wrap z = z.
Proof. intros. wrap_lia. Qed.

Lemma wrap_is_size_t z : is_size_t (wrap z).
Proof. wrap_lia. Qed.

Lemma mod_one_turn x n :
  0 < n -> 0 <= x < 2 * n -> x mod n = if x <? n then x else x - n.
Proof.
  intros Hn Hx. destruct (Z.ltb_spec x n).
  - apply Z.mod_small. lia.
  - symmetry. apply (Z.mod_unique x n 1); lia.
Qed.

(** ** The bounded buffer *)

Section BufferFacts.
Context {T : Type}.
Variable Nm : Z.
Import Buffer.
Implicit Types (b : buffer (T := T)) (n : Z) (v : T).

(** What [get] really checks: it throws when [n] is above the logical
    size or outside the array, and at no other index. *)
Lemma get_throws_iff b n :
  wf Nm b -> 0 <= n ->
  (exists b', get Nm n b = OutOfRange b') <-> m_used b < n \/ Nm <= n.
Proof.
  intros [Hlen _] Hn. unfold get, at_, array_get.
  destruct (Z.ltb_spec (m_used b) n); [split; eauto|].
  destruct (Z.leb_spec Nm n); [split; eauto|].
  destruct (Z.leb_spec 0 n); [|lia].
  destruct (elems b !! Z.to_nat n) eqn:E.
  - split; [intros [? ?]; discriminate | lia].
  - apply lookup_ge_None in E. lia.
Qed.

(** A throwing [get] leaves the buffer as it was. *)
Lemma get_throws_unchanged b n b' : get Nm n b = OutOfRange b' -> b' = b.
Proof.
  unfold get, at_. repeat case_match; congruence.
Qed.
End BufferFacts.

(** C1 (the code departs from the claim). The claim: [get(n)] fails with
    OutOfRange exactly when [n >= used], so [get(0)] fails on a buffer with
    [used == 0].  The code compares with [n > m_used]: on a newly
    constructed [cc::buffer<_, 8>], whose size is 0, [get(0)] does not throw
    and returns slot 0 of the array, which was never assigned. *)
Lemma get_at_size_returns_stale_slot :
  let b := Buffer.buffer_new [7; 7; 7; 7; 7; 7; 7; 7] in
  Buffer.size b = 0 /\ Buffer.empty b = true /\ Buffer.get 8 0 b = Ret 7 b.
Proof. repeat split. Qed.

Section BufferAssign.
Context {T : Type}.
Variable Nm : Z.
Import Buffer.

(** C9. For every buffer and every physical index [n < Nm], [assign(n, v)]
    returns, a following [get(n)] returns [v], and the size right after
    the [assign] is [max(previous size, n + 1)]. *)
Theorem assign_then_get (b : buffer (T := T)) (n : Z) (v : T) :
  wf Nm b -> 0 <= n < Nm -> Nm < size_t_modulus ->
  exists b',
    assign Nm n v b = Ret tt b' /\
    get Nm n b' = Ret v b' /\
    size b' = Z.max (size b) (n + 1) /\
    wf Nm b'.
Proof.
  intros [Hlen Hused] Hn HNm.
  unfold assign, array_set.
  destruct (Z.leb_spec Nm n); [lia|].
  destruct (Z.leb_spec 0 n); [|lia].
  destruct (Z.ltb_spec n (Z.of_nat (length (elems b)))); [|lia].
  simpl. eexists. split; [reflexivity|].
  assert (Hw : wrap (n + 1) = n + 1) by (apply wrap_small; unfold is_size_t; lia).
  rewrite Hw. unfold get, at_, array_get, size, wf. simpl.
  destruct (Z.ltb_spec (Z.max (m_used b) (n + 1)) n); [lia|].
  destruct (Z.leb_spec Nm n); [lia|].
  destruct (Z.leb_spec 0 n); [|lia].
  rewrite list_lookup_insert_eq by lia.
  rewrite length_insert. unfold is_size_t in *. repeat split; lia.
Qed.
End BufferAssign.

Lemma assign_then_get_witness :
  exists b',
    Buffer.assign 8 1 5 (Buffer.buffer_new [0; 0; 0; 0; 0; 0; 0; 0]) = Ret tt b' /\
    Buffer.get 8 1 b' = Ret 5 b' /\
    Buffer.size b' = Z.max (Buffer.size (Buffer.buffer_new [0; 0; 0; 0; 0; 0; 0; 0])) (1 + 1) /\
    Buffer.wf 8 b'.
Proof.
  apply (assign_then_get 8 (Buffer.buffer_new [0; 0; 0; 0; 0; 0; 0; 0]) 1 5).
  - split; [reflexivity | unfold is_size_t, size_t_modulus; simpl; lia].
  - lia.
  - unfold size_t_modulus; lia.
Defined.

(** ** Windows of a ring of slots *)

Section Ring.
Context {T : Type}.
Implicit Types (a vs : list T) (t d n i : nat).
Local Open Scope nat_scope.

Lemma window_length a t d :
  t < length a -> d <= length a -> length (window a t d) = d.
Proof.
  intros Ht Hd. unfold window.
  rewrite length_take, length_drop, length_app. lia.
Qed.

(** Position [i] of a window is the slot [i] places after its start. *)
Lemma window_lookup a t d i :
  t < length a -> d <= length a ->
  window a t d !! i =
    if decide (i < d) then a !! slot (length a) (t + i) else None.
Proof.
  intros Ht Hd. unfold window, slot. case_decide.
  - rewrite lookup_take_lt, lookup_drop by lia. case_decide.
    + by rewrite lookup_app_l by lia.
    + by rewrite lookup_app_r by lia.
  - by rewrite lookup_take_ge by lia.
Qed.

Ltac inserts_lookup :=
  repeat first
    [ rewrite list_lookup_inserts_lt by lia
    | rewrite list_lookup_inserts_ge
        by (rewrite ?length_drop, ?length_take; lia)
    | rewrite list_lookup_inserts
        by (rewrite ?length_inserts, ?length_drop, ?length_take; lia) ].

(** Writing [vs] behind a window in two runs, up to the last slot and
    from slot 0 on, extends the window by [vs]. *)
Lemma window_write a t d vs :
  t < length a -> d + length vs <= length a ->
  let hm := slot (length a) (t + d) in
  let n1 := min (length vs) (length a - hm) in
  window (list_inserts 0 (drop n1 vs) (list_inserts hm (take n1 vs) a))
         t (d + length vs)
  = window a t d ++ vs.
Proof.
  intros Ht Hd hm n1. apply list_eq; intros i.
  rewrite lookup_app, !window_lookup by (rewrite ?length_inserts; lia).
  rewrite !length_inserts, window_length by lia.
  subst hm n1. unfold slot.
  repeat case_decide; try lia.
  all: inserts_lookup.
  all: rewrite ?lookup_take_lt, ?lookup_drop by lia.
  all: try (destruct (a !! _) eqn:E; [done|]; apply lookup_ge_None in E; lia).
  all: try (f_equal; lia).
  all: try (symmetry; apply lookup_ge_None; lia).
Qed.

(** Reading the first [n] elements of a window in two runs. *)
Lemma window_read a t d n :
  t < length a -> n <= d -> d <= length a ->
  let n1 := min n (length a - t) in
  take n1 (drop t a) ++ take (n - n1) a = take n (window a t d).
Proof.
  intros Ht Hn Hd n1. unfold window.
  rewrite take_take, Nat.min_l, drop_app_le, take_app, length_drop by lia.
  subst n1. destruct (decide (n <= length a - t)).
  - rewrite Nat.min_l by lia. do 2 f_equal. lia.
  - rewrite Nat.min_r by lia.
    rewrite !(take_ge (drop t a)) by (rewrite length_drop; lia). done.
Qed.

(** Moving the start of a window [n] places on drops its first [n]
    elements. *)
Lemma window_advance a t d n :
  t < length a -> n <= d -> d <= length a ->
  slot (length a) (t + n) < length a ->
  window a (slot (length a) (t + n)) (d - n) = drop n (window a t d).
Proof.
  intros Ht Hn Hd Hs. apply list_eq; intros i.
  rewrite lookup_drop, !window_lookup by lia.
  unfold slot in *. repeat case_decide; try lia; f_equal; lia.
Qed.
End Ring.

(** ** The cursors of the fifo *)

Section FifoCursors.
Context {T : Type}.
Variable Nm : Z.
Hypothesis Nm_pos : 0 < Nm.
Hypothesis Nm_size_t : Nm < size_t_modulus.
Import Fifo.
Implicit Types (s : fifo (T := T)) (v : T) (a vs : list T) (n : Z).

Lemma full_iff_size s : wf Nm s -> full Nm s = true <-> size s = Nm.
Proof.
  intros (_ & Hh & Ht). unfold full, size, max_size.
  rewrite Z.eqb_eq. wrap_lia.
Qed.

Lemma empty_iff_size s : wf Nm s -> empty s = true <-> size s = 0.
Proof.
  intros (_ & Hh & Ht). unfold empty, size.
  rewrite Z.eqb_eq. wrap_lia.
Qed.

Lemma new_sized a : Z.of_nat (length a) = Nm -> sized Nm (fifo_new a).
Proof.
  intros Ha. unfold sized, wf, size. simpl. wrap_lia.
Qed.

Lemma increment_tail_sized n s :
  sized Nm s -> 0 <= n <= size s ->
  sized Nm (increment_tail Nm n s) /\
  size (increment_tail Nm n s) = size s - n.
Proof.
  intros [(Hlen & Hh & Ht) Hsz] Hn. unfold sized, wf, increment_tail, max_size.
  unfold size in *.
  destruct (Z.leb_spec Nm (wrap (m_tail s + n))); simpl;
    (split; [split; [split; [done|] |] |]); wrap_lia.
Qed.

Lemma push_sized v s s' :
  sized Nm s -> push Nm v s = Ret tt s' -> sized Nm s' /\ size s' = size s + 1.
Proof.
  intros [Hwf Hsz] Hp. unfold push in Hp.
  destruct (full Nm s) eqn:Hf; [discriminate|].
  assert (size s <> Nm) as Hne.
  { intros E. apply full_iff_size in E; [congruence | done]. }
  destruct (array_set _ _ _) eqn:Ha; [|discriminate].
  injection Hp as <-. unfold array_set in Ha.
  destruct (_ && _); [|discriminate]. injection Ha as <-.
  destruct Hwf as (Hlen & Hh & Ht).
  unfold sized, wf, size in *. simpl. rewrite length_insert.
  (split; [split; [split; [done|] |] |]); wrap_lia.
Qed.

Lemma pop_sized s x s' :
  sized Nm s -> pop Nm s = Ret x s' ->
  sized Nm s' /\ size s' = size s - 1 /\ m_tail s < Nm.
Proof.
  intros Hs Hp. unfold pop in Hp.
  destruct (empty s) eqn:He; [discriminate|].
  destruct (array_get _ _) eqn:Ha; [|discriminate].
  injection Hp as _ <-.
  assert (size s <> 0) as Hne.
  { intros E. apply empty_iff_size in E; [congruence | apply Hs]. }
  assert (0 <= size s) by (unfold size; wrap_lia).
  destruct (increment_tail_sized 1 s Hs) as [? ?]; [lia|].
  split; [done|]. split; [done|].
  unfold array_get in Ha. destruct (0 <=? m_tail s); [|discriminate].
  apply lookup_lt_Some in Ha. destruct Hs as [(Hlen & _ & Ht) _].
  unfold is_size_t in Ht. lia.
Qed.

Lemma push_list_sized vs s s' :
  sized Nm s -> push_list Nm vs s = Ret tt s' ->
  sized Nm s' /\ size s' = size s + Z.of_nat (length vs).
Proof.
  intros [(Hlen & Hh & Ht) Hsz] Hp. unfold push_list in Hp.
  destruct (Z.ltb_spec (free Nm s) (Z.of_nat (length vs))); [discriminate|].
  destruct (copy_in _ _ (elems s)) as [a1|] eqn:H1; [|discriminate].
  destruct (copy_in _ _ a1) as [a2|] eqn:H2; [|discriminate].
  injection Hp as <-. unfold copy_in in H1, H2.
  destruct (_ && _) in H1; [|discriminate]. injection H1 as <-.
  destruct (_ && _) in H2; [|discriminate]. injection H2 as <-.
  unfold sized, wf, free, max_size, size in *. simpl.
  rewrite !length_inserts.
  (split; [split; [split; [done|] |] |]); wrap_lia.
Qed.

Lemma pop_list_sized n s out s' :
  sized Nm s -> pop_list Nm n s = Ret out s' -> sized Nm s'.
Proof.
  intros Hs Hp. unfold pop_list in Hp.
  destruct (_ && _) eqn:Hc in Hp; [discriminate|].
  destruct (copy_out _ _ _) as [o1|] eqn:H1; [|discriminate].
  destruct (copy_out _ 0 _) as [o2|] eqn:H2; [|discriminate].
  injection Hp as _ <-.
  apply increment_tail_sized; [done|].
  assert (0 <= size s) by (unfold size; wrap_lia).
  destruct (Z.eqb_spec n 0); [lia|].
  unfold copy_out in H1.
  destruct (Z.leb_spec 0 (m_tail s)); [|discriminate].
  destruct (Z.leb_spec 0 (Z.min n (wrap (max_size Nm s - m_tail s))));
    [|discriminate].
  assert (0 <= wrap (max_size Nm s - m_tail s)) by wrap_lia.
  apply andb_false_iff in Hc as [Hc|Hc];
    [apply Z.ltb_ge in Hc | apply Z.ltb_ge in Hc]; lia.
Qed.

Lemma end_sized s i s' :
  sized Nm s -> end_ s = Ret i s' ->
  sized Nm s' /\ i = m_head s /\ m_tail s' = m_head s /\
  m_head s' = m_head s /\ elems s' = elems s.
Proof.
  intros [(Hlen & Hh & Ht) Hsz] He. injection He as <- <-.
  unfold sized, wf, size in *. simpl.
  repeat split; try done; wrap_lia.
Qed.

Lemma exec_sized c s (r : value) s' :
  sized Nm s -> exec Nm c s = Ret r s' -> sized Nm s'.
Proof.
  intros Hs He. destruct c as [|v0| |vs|n| |]; simpl in He.
  - injection He as _ <-. destruct Hs as [(Hlen & _) _].
    unfold sized, wf, size. simpl. split; [split; [done|] |]; wrap_lia.
  - destruct (push Nm v0 s) as [[] s1| |] eqn:E; try discriminate.
    injection He as _ <-. eapply push_sized; eauto.
  - destruct (pop Nm s) as [x s1| |] eqn:E; try discriminate.
    injection He as _ <-. eapply pop_sized; eauto.
  - destruct (push_list Nm vs s) as [[] s1| |] eqn:E; try discriminate.
    injection He as _ <-. eapply push_list_sized; eauto.
  - destruct (pop_list Nm n s) as [x s1| |] eqn:E; try discriminate.
    injection He as _ <-. eapply pop_list_sized; eauto.
  - injection He as _ <-. done.
  - destruct (end_ s) as [x s1| |] eqn:E; try discriminate.
    injection He as _ <-. eapply end_sized; eauto.
Qed.

Lemma reachable_sized allowed s : reachable_via Nm allowed s -> sized Nm s.
Proof.
  induction 1 as [a Ha | s c v s' _ IH _ He].
  - by apply new_sized.
  - eapply exec_sized; eauto.
Qed.
Lemma reachable_wf allowed s : reachable_via Nm allowed s -> wf Nm s.
Proof. intros H. by apply reachable_sized in H as [? _]. Qed.

(** C7. In every state reachable from a new fifo by public calls
    ([begin] and [end] included) the size, which is the [size_t]
    difference [m_head - m_tail], lies in [0, Nm], [full()] holds exactly
    when it is [Nm] and [empty()] exactly when the cursors are equal; and
    as long as the cursors are below the wrap-around of [size_t] it is the
    exact difference of the two cursors. *)
Theorem reachable_size_invariant s :
  reachable Nm s ->
  0 <= size s <= Nm /\
  size s = wrap (m_head s - m_tail s) /\
  (full Nm s = true <-> size s = Nm) /\
  (empty s = true <-> m_head s = m_tail s) /\
  (m_tail s + Nm < size_t_modulus ->
   0 <= m_head s - m_tail s <= Nm /\
   size s = m_head s - m_tail s /\
   (full Nm s = true <-> m_head s - m_tail s = Nm)).
Proof.
  intros Hr. apply reachable_sized in Hr as [Hwf Hsz].
  pose proof (full_iff_size s Hwf) as Hfull.
  destruct Hwf as (Hlen & Hh & Ht).
  assert (0 <= size s) by (unfold size; wrap_lia).
  split; [lia|]. split; [done|]. split; [done|].
  split; [unfold empty; apply Z.eqb_eq|].
  intros Hno.
  assert (size s = m_head s - m_tail s) as E by (unfold size in *; wrap_lia).
  rewrite <- E. repeat split; try lia; apply Hfull.
Qed.

(** C8. [begin()] returns the tail and changes nothing; [end()] returns
    the head and advances the tail by [size()], which puts it on the head:
    the fifo is empty after [end()], and so after a range-based [for]. *)
Theorem end_consumes_begin_does_not s :
  wf Nm s ->
  begin s = Ret (m_tail s) s /\
  exists s',
    end_ s = Ret (m_head s) s' /\
    m_tail s' = wrap (m_tail s + size s) /\
    m_tail s' = m_head s /\
    m_head s' = m_head s /\
    elems s' = elems s /\
    empty s' = true /\
    size s' = 0 /\
    snd (range_for Nm s) = s' /\
    length (fst (range_for Nm s)) = Z.to_nat (size s).
Proof.
  intros (Hlen & Hh & Ht). split; [done|].
  eexists. split; [reflexivity|]. simpl.
  assert (wrap (m_tail s + size s) = m_head s) as E
    by (unfold size; wrap_lia).
  rewrite !E. split; [done|]. split; [done|]. split; [done|].
  split; [done|]. split; [unfold empty; simpl; apply Z.eqb_refl|].
  split; [unfold size; simpl; by rewrite Z.sub_diag|]. split; [done|].
  unfold size. generalize (m_tail s) at 1.
  induction (Z.to_nat (wrap (m_head s - m_tail s))) as [|k IH];
    intros i; simpl; [done|].
  by rewrite IH.
Qed.

(** The two [pop]s agree on every well-formed object: they read the same
    slot, and the tail they normalise is [Nm] exactly. *)
Lemma pop_eq_pop_B s : wf Nm s -> pop Nm s = pop_B Nm s.
Proof.
  intros (Hlen & Hh & Ht). unfold pop, pop_B, increment_tail, max_size.
  destruct (empty s); [done|].
  destruct (array_get _ _) eqn:Ha; [|done]. f_equal.
  unfold array_get in Ha. destruct (0 <=? m_tail s); [|discriminate].
  apply lookup_lt_Some in Ha.
  destruct (Z.leb_spec Nm (wrap (m_tail s + 1))); [|done].
  f_equal. wrap_lia.
Qed.

(** C5. [push] on a fifo whose size is [Nm] throws and leaves the object
    as it was; on any other fifo it writes [v] into slot [m_head mod Nm]
    and increments [m_head], which is not reduced. *)
Theorem push_full_throws_else_writes v s :
  wf Nm s ->
  (size s = Nm -> full Nm s = true /\ push Nm v s = OutOfRange s) /\
  (size s <> Nm ->
   let i := Z.to_nat (m_head s mod Nm) in
   full Nm s = false /\
   (i < length (elems s))%nat /\
   push Nm v s = Ret tt {| elems := <[i := v]> (elems s);
                           m_head := wrap (m_head s + 1);
                           m_tail := m_tail s |} /\
   <[i := v]> (elems s) !! i = Some v /\
   (m_head s + 1 < size_t_modulus -> wrap (m_head s + 1) = m_head s + 1)).
Proof.
  intros Hwf. pose proof (full_iff_size s Hwf) as Hfull.
  destruct Hwf as (Hlen & Hh & Ht). split.
  - intros E. apply Hfull in E. unfold push. by rewrite E.
  - intros Hne i.
    assert (full Nm s = false) as Hf.
    { destruct (full Nm s); [|done]. destruct Hne. by apply Hfull. }
    pose proof (Z.mod_pos_bound (m_head s) Nm Nm_pos) as Hm.
    assert (i < length (elems s))%nat as Hi by (subst i; lia).
    split; [done|]. split; [done|]. split.
    + unfold push, array_set, head_modulo, max_size. rewrite Hf.
      destruct (Z.leb_spec 0 (m_head s mod Nm)); [|lia].
      destruct (Z.ltb_spec (m_head s mod Nm) (Z.of_nat (length (elems s))));
        [done|lia].
    + split; [by apply list_lookup_insert_eq|].
      intros. apply wrap_small. unfold is_size_t in *. lia.
Qed.
End FifoCursors.

(** ** The fifo as a queue *)

Section FifoQueue.
Context {T : Type}.
Variable Nm : Z.
Hypothesis Nm_pos : 0 < Nm.
(** An array type of more than [PTRDIFF_MAX] slots does not exist. *)
Hypothesis Nm_max : Nm < 2 ^ 63.
Import Fifo.
Implicit Types (s : fifo (T := T)) (v x : T) (a vs q : list T) (n : Z).

Lemma normal_facts s :
  normal Nm s ->
  wf Nm s /\ size s = m_head s - m_tail s /\
  free Nm s = Nm - size s /\ 0 <= size s <= Nm.
Proof.
  intros (Hlen & Ht & Hh). unfold wf, free, size, max_size.
  repeat split; try done; wrap_lia.
Qed.

Lemma new_normal a : Z.of_nat (length a) = Nm -> normal Nm (fifo_new a).
Proof. intros Ha. unfold normal. simpl. lia. Qed.

Lemma contents_length s : normal Nm s -> Z.of_nat (length (contents s)) = size s.
Proof.
  intros Hn. destruct (normal_facts s Hn) as (_ & Hsz & _ & Hb).
  destruct Hn as (Hlen & Ht & Hh).
  unfold contents. rewrite window_length; lia.
Qed.

(** The slot [head_modulo] computes is the one right behind the window
    of live elements. *)
Lemma head_modulo_slot s :
  normal Nm s ->
  head_modulo Nm s =
    Z.of_nat (slot (length (elems s))
                   (Z.to_nat (m_tail s) + Z.to_nat (size s))).
Proof.
  intros Hn. destruct (normal_facts s Hn) as (_ & Hsz & _ & Hb).
  destruct Hn as (Hlen & Ht & Hh).
  unfold head_modulo, max_size. rewrite mod_one_turn by lia.
  unfold slot. destruct (Z.ltb_spec (m_head s) Nm); case_decide; lia.
Qed.

Ltac copy_ok :=
  match goal with
  | |- context [if ?c then _ else _] =>
      let C := fresh "C" in
      destruct c eqn:C;
      [| exfalso;
         repeat (apply andb_false_iff in C as [C|C]);
         apply Z.leb_gt in C;
         rewrite ?length_take, ?length_drop, ?length_inserts in C; lia ]
  end.

(** [push_list] on a fifo with room for [vs] appends [vs] to the queue. *)
Lemma push_list_normal vs s :
  normal Nm s -> Z.of_nat (length vs) <= free Nm s ->
  exists s',
    push_list Nm vs s = Ret tt s' /\ normal Nm s' /\
    contents s' = contents s ++ vs /\
    m_tail s' = m_tail s /\ m_head s' = m_head s + Z.of_nat (length vs).
Proof.
  intros Hn Hfree. destruct (normal_facts s Hn) as (_ & Hsz & Hfr & Hb).
  pose proof (head_modulo_slot s Hn) as Hhm.
  destruct Hn as (Hlen & Ht & Hh).
  assert (0 <= head_modulo Nm s < Nm) as Hm
    by (apply Z.mod_pos_bound; done).
  assert (wrap (max_size Nm s - head_modulo Nm s) = Nm - head_modulo Nm s)
    as Hw by (unfold max_size; apply wrap_small; wrap_lia).
  assert (wrap (m_head s + Z.of_nat (length vs))
          = m_head s + Z.of_nat (length vs)) as Hw'
    by (apply wrap_small; wrap_lia).
  unfold push_list. destruct (Z.ltb_spec (free Nm s) (Z.of_nat (length vs)));
    [lia|].
  rewrite Hw, Hw'. unfold copy_in. copy_ok. copy_ok.
  eexists. split; [reflexivity|].
  assert (size {| elems := list_inserts (Z.to_nat 0)
                    (drop (Z.to_nat (Z.min (Z.of_nat (length vs))
                                           (Nm - head_modulo Nm s))) vs)
                    (list_inserts (Z.to_nat (head_modulo Nm s))
                       (take (Z.to_nat (Z.min (Z.of_nat (length vs))
                                              (Nm - head_modulo Nm s))) vs)
                       (elems s));
                  m_head := m_head s + Z.of_nat (length vs);
                  m_tail := m_tail s |}
          = size s + Z.of_nat (length vs)) as Hsz'
    by (unfold size; simpl; wrap_lia).
  split; [|split; [|done]].
  - unfold normal. simpl. rewrite !length_inserts. lia.
  - unfold contents. rewrite Hsz'. simpl elems. simpl m_tail.
    rewrite <- (window_write (elems s) (Z.to_nat (m_tail s))
                  (Z.to_nat (size s)) vs) by lia.
    f_equal; [|lia]. rewrite Hhm, Nat2Z.id.
    replace (Z.to_nat (Z.min (Z.of_nat (length vs))
               (Nm - Z.of_nat (slot (length (elems s))
                  (Z.to_nat (m_tail s) + Z.to_nat (size s))))))
      with (length vs `min`
              (length (elems s) -
                 slot (length (elems s))
                   (Z.to_nat (m_tail s) + Z.to_nat (size s))))%nat
      by lia.
    done.
Qed.
(** [increment_tail] by at most the size removes that many elements from
    the front of the queue and keeps the tail below [Nm]. *)
Lemma increment_tail_normal n s :
  normal Nm s -> 0 <= n <= size s ->
  normal Nm (increment_tail Nm n s) /\
  contents (increment_tail Nm n s) = drop (Z.to_nat n) (contents s) /\
  size (increment_tail Nm n s) = size s - n.
Proof.
  intros Hn Hle. destruct (normal_facts s Hn) as (_ & Hsz & _ & Hb).
  destruct Hn as (Hlen & Ht & Hh).
  assert (wrap (m_tail s + n) = m_tail s + n) as Hw
    by (apply wrap_small; wrap_lia).
  unfold increment_tail, max_size. rewrite Hw.
  pose proof (window_advance (elems s) (Z.to_nat (m_tail s))
                (Z.to_nat (size s)) (Z.to_nat n)) as W.
  unfold slot in W.
  destruct (Z.leb_spec Nm (m_tail s + n)).
  - assert (wrap (m_head s - Nm) = m_head s - Nm) as ->
      by (apply wrap_small; wrap_lia).
    assert (wrap (m_tail s + n - Nm) = m_tail s + n - Nm) as ->
      by (apply wrap_small; wrap_lia).
    assert (size {| elems := elems s; m_head := m_head s - Nm;
                    m_tail := m_tail s + n - Nm |} = size s - n) as Hsz'
      by (unfold size; simpl; wrap_lia).
    split; [unfold normal; simpl; lia|]. split; [|done].
    unfold contents. rewrite Hsz'. simpl.
    rewrite <- W by (try case_decide; lia).
    f_equal; [case_decide|]; lia.
  - assert (size {| elems := elems s; m_head := m_head s;
                    m_tail := m_tail s + n |} = size s - n) as Hsz'
      by (unfold size; simpl; wrap_lia).
    split; [unfold normal; simpl; lia|]. split; [|done].
    unfold contents. rewrite Hsz'. simpl.
    rewrite <- W by (try case_decide; lia).
    f_equal; [case_decide|]; lia.
Qed.

(** [pop_list] of at most [size()] elements returns that many elements
    from the front of the queue; a count of 0 stands for [size()]. *)
Lemma pop_list_normal n s :
  normal Nm s -> 0 <= n <= size s ->
  let m := if n =? 0 then size s else n in
  pop_list Nm n s = Ret (take (Z.to_nat m) (contents s))
                        (increment_tail Nm m s).
Proof.
  intros Hn Hle m. destruct (normal_facts s Hn) as (_ & Hsz & _ & Hb).
  destruct Hn as (Hlen & Ht & Hh).
  assert (0 <= m <= size s) as Hm
    by (subst m; destruct (Z.eqb_spec n 0); lia).
  unfold pop_list.
  destruct (Z.ltb_spec (size s) n); [lia|]. rewrite andb_false_r.
  fold m.
  assert (wrap (max_size Nm s - m_tail s) = Nm - m_tail s) as ->
    by (unfold max_size; apply wrap_small; wrap_lia).
  assert (wrap (m - Z.min m (Nm - m_tail s)) = m - Z.min m (Nm - m_tail s))
    as -> by (apply wrap_small; wrap_lia).
  unfold copy_out. copy_ok. copy_ok. f_equal. unfold contents.
  rewrite <- (window_read (elems s) (Z.to_nat (m_tail s))
                (Z.to_nat (size s)) (Z.to_nat m)) by lia.
  simpl. f_equal; f_equal; lia.
Qed.

(** [pop] on a non-empty queue returns its first element. *)
Lemma pop_normal s x q :
  normal Nm s -> contents s = x :: q ->
  pop Nm s = Ret x (increment_tail Nm 1 s) /\
  normal Nm (increment_tail Nm 1 s) /\
  contents (increment_tail Nm 1 s) = q /\
  size (increment_tail Nm 1 s) = size s - 1.
Proof.
  intros Hn Hc. pose proof (contents_length s Hn) as Hl.
  rewrite Hc in Hl. simpl in Hl.
  destruct (normal_facts s Hn) as (_ & Hsz & _ & Hb).
  destruct (increment_tail_normal 1 s Hn) as (Hn' & Hc' & Hs'); [lia|].
  rewrite Hc in Hc'. split; [|done].
  assert (contents s !! 0%nat = Some x) as H0 by (by rewrite Hc).
  destruct Hn as (Hlen & Ht & Hh).
  unfold contents in H0. rewrite window_lookup in H0 by lia.
  case_decide; [|lia]. unfold slot in H0. case_decide; [|lia].
  unfold pop, empty, array_get.
  destruct (Z.eqb_spec (m_head s) (m_tail s)); [lia|].
  destruct (Z.leb_spec 0 (m_tail s)); [|lia].
  rewrite Nat.add_0_r in H0. by rewrite H0.
Qed.

(** [pop] on an empty queue throws. *)
Lemma pop_empty s : normal Nm s -> size s = 0 -> pop Nm s = OutOfRange s.
Proof.
  intros Hn H0. destruct (normal_facts s Hn) as (_ & Hsz & _).
  unfold pop, empty. destruct (Z.eqb_spec (m_head s) (m_tail s)); [done|lia].
Qed.

(** A single [push] is a [push_list] of one element. *)
Lemma push_eq_push_list v s :
  normal Nm s -> push Nm v s = push_list Nm [v] s.
Proof.
  intros Hn. destruct (normal_facts s Hn) as (_ & Hsz & Hfr & Hb).
  destruct Hn as (Hlen & Ht & Hh).
  assert (0 <= head_modulo Nm s < Nm) as Hm
    by (apply Z.mod_pos_bound; done).
  unfold push, push_list, full, max_size.
  assert (wrap (m_tail s + Nm) = m_tail s + Nm) as ->
    by (apply wrap_small; wrap_lia).
  change (Z.of_nat (length [v])) with 1.
  destruct (Z.eqb_spec (m_head s) (m_tail s + Nm));
    destruct (Z.ltb_spec (free Nm s) 1); try lia; [done|].
  assert (wrap (Nm - head_modulo Nm s) = Nm - head_modulo Nm s) as ->
    by (apply wrap_small; wrap_lia).
  rewrite Z.min_l by lia. unfold array_set, copy_in. simpl.
  change (Z.of_nat 1) with 1. change (Z.of_nat 0) with 0.
  destruct (Z.leb_spec 0 (head_modulo Nm s)); [|lia].
  destruct (Z.ltb_spec (head_modulo Nm s) (Z.of_nat (length (elems s))));
    [|lia].
  destruct (Z.leb_spec (head_modulo Nm s + 1) (Z.of_nat (length (elems s))));
    [|lia].
  simpl. change (0 + 0) with 0.
  destruct (Z.leb_spec 0 (Z.of_nat (length
              (<[Z.to_nat (head_modulo Nm s):=v]> (elems s))))); [done|lia].
Qed.

Lemma push_normal v s :
  normal Nm s -> size s < Nm ->
  exists s',
    push Nm v s = Ret tt s' /\ normal Nm s' /\
    contents s' = contents s ++ [v] /\ size s' = size s + 1.
Proof.
  intros Hn Hlt. destruct (normal_facts s Hn) as (_ & Hsz & Hfr & Hb).
  destruct (push_list_normal [v] s Hn) as (s' & Hp & Hn' & Hc & Ht' & Hh');
    [simpl; lia|].
  exists s'. rewrite push_eq_push_list by done.
  destruct (normal_facts s' Hn') as (_ & Hsz' & _).
  simpl in Hh'. split; [done|]. split; [done|]. split; [done|]. lia.
Qed.

Lemma push_full s v : normal Nm s -> size s = Nm -> push Nm v s = OutOfRange s.
Proof.
  intros Hn HN. destruct (normal_facts s Hn) as (_ & Hsz & _).
  destruct Hn as (Hlen & Ht & Hh). unfold push, full, max_size.
  assert (wrap (m_tail s + Nm) = m_tail s + Nm) as ->
    by (apply wrap_small; wrap_lia).
  destruct (Z.eqb_spec (m_head s) (m_tail s + Nm)); [done|lia].
Qed.
(** What a returning [pop_list] has done. *)
Lemma pop_list_inv n s out s' :
  normal Nm s -> pop_list Nm n s = Ret out s' ->
  exists m, 0 <= m <= size s /\ (n = m \/ n = 0 /\ m = size s) /\
            out = take (Z.to_nat m) (contents s) /\
            s' = increment_tail Nm m s.
Proof.
  intros Hn Hp. destruct (normal_facts s Hn) as (_ & Hsz & _ & Hb).
  destruct (decide (0 <= n <= size s)) as [Hle|Hout].
  - rewrite pop_list_normal in Hp by done. injection Hp as <- <-.
    destruct (Z.eqb_spec n 0); eexists; (split; [|split; [|done]]); lia.
  - exfalso. unfold pop_list in Hp.
    destruct (Z.ltb_spec 0 n); destruct (Z.ltb_spec (size s) n);
      simpl in Hp; try discriminate; try lia.
    destruct (Z.eqb_spec n 0); [lia|]. unfold copy_out in Hp.
    assert (0 <= wrap (max_size Nm s - m_tail s)) by wrap_lia.
    destruct (Z.leb_spec 0 (Z.min n (wrap (max_size Nm s - m_tail s))));
      [lia|].
    rewrite andb_false_r in Hp. discriminate.
Qed.

Lemma exec_normal c s (r : value) s' :
  queue_call c = true -> normal Nm s -> exec Nm c s = Ret r s' ->
  normal Nm s'.
Proof.
  intros Hq Hn He. destruct (normal_facts s Hn) as (_ & Hsz & Hfr & Hb).
  destruct c as [|v| |vs|n| |]; simpl in He; try discriminate.
  - injection He as _ <-. destruct Hn as (Hlen & _). unfold normal. simpl. lia.
  - destruct (decide (size s < Nm)) as [Hlt|Hge].
    + destruct (push_normal v s Hn Hlt) as (s1 & Hp & Hn1 & _).
      rewrite Hp in He. by injection He as _ <-.
    + rewrite push_full in He by (done || lia). discriminate.
  - destruct (contents s) as [|x q] eqn:Hc.
    + pose proof (contents_length s Hn) as Hl. rewrite Hc in Hl.
      rewrite pop_empty in He by (done || simpl in Hl; lia). discriminate.
    + destruct (pop_normal s x q Hn Hc) as (Hp & Hn1 & _).
      rewrite Hp in He. by injection He as _ <-.
  - destruct (decide (Z.of_nat (length vs) <= free Nm s)) as [Hle|Hgt].
    + destruct (push_list_normal vs s Hn Hle) as (s1 & Hp & Hn1 & _).
      rewrite Hp in He. by injection He as _ <-.
    + unfold push_list in He.
      destruct (Z.ltb_spec (free Nm s) (Z.of_nat (length vs))); [|lia].
      discriminate.
  - destruct (pop_list Nm n s) as [out s1| |] eqn:Hp; try discriminate.
    injection He as _ <-.
    destruct (pop_list_inv n s out s1 Hn Hp) as (m & Hm & _ & _ & ->).
    by apply increment_tail_normal.
  - by injection He as _ <-.
Qed.

(** Every call but [end()] keeps the tail below [Nm] and the head at most
    [Nm] ahead of it. *)
Lemma queue_calls_keep_normal s :
  reachable_via Nm queue_call s -> normal Nm s.
Proof.
  induction 1 as [a Ha | s c r s' _ IH Hq He].
  - by apply new_normal.
  - eapply exec_normal; eauto.
Qed.

Lemma run_push_pop s cs :
  normal Nm s -> forallb push_or_pop cs = true ->
  match run Nm cs s with
  | Ret outs s' =>
      admissible Nm (size s) cs = true /\
      normal Nm s' /\
      size s' = size s + Z.of_nat (length (pushed cs)) - Z.of_nat (pops cs) /\
      popped outs = take (pops cs) (contents s ++ pushed cs) /\
      contents s' = drop (pops cs) (contents s ++ pushed cs)
  | OutOfRange _ => admissible Nm (size s) cs = false
  | Undefined => False
  end.
Proof.
  intros Hn Hcs. revert s Hn.
  induction cs as [|c cs IH]; intros s Hn; simpl.
  { rewrite app_nil_r. split_and!; try done; lia. }
  simpl in Hcs. apply andb_true_iff in Hcs as [Hc Hcs].
  specialize (IH Hcs).
  destruct (normal_facts s Hn) as (_ & Hsz & Hfr & Hb).
  destruct c as [|v| | | | |]; try discriminate; simpl.
  - destruct (Z.ltb_spec (size s) Nm) as [Hlt|Hge].
    + destruct (push_normal v s Hn Hlt) as (s1 & Hp & Hn1 & Hc1 & Hs1).
      rewrite Hp. simpl. specialize (IH s1 Hn1).
      destruct (run Nm cs s1) as [outs s'| |]; simpl; [| |done].
      * rewrite Hs1, Hc1, <- app_assoc in IH. simpl in IH.
        destruct IH as (Ha & Hn' & Hs' & Hpo & Hco).
        split_and!; try done; lia.
      * by rewrite Hs1 in IH.
    + rewrite push_full by (done || lia). done.
  - destruct (contents s) as [|x q] eqn:Hq.
    + pose proof (contents_length s Hn) as Hl. rewrite Hq in Hl.
      simpl in Hl. rewrite pop_empty by (done || lia).
      destruct (Z.ltb_spec 0 (size s)); [lia|done].
    + pose proof (contents_length s Hn) as Hl. rewrite Hq in Hl.
      simpl in Hl.
      destruct (pop_normal s x q Hn Hq) as (Hp & Hn1 & Hc1 & Hs1).
      rewrite Hp. simpl. specialize (IH _ Hn1).
      destruct (Z.ltb_spec 0 (size s)); [|lia].
      destruct (run Nm cs (increment_tail Nm 1 s)) as [outs s'| |];
        simpl; [| |done].
      * rewrite Hs1, Hc1 in IH.
        destruct IH as (Ha & Hn' & Hs' & Hpo & Hco).
        split_and!; try done; [lia | by rewrite Hpo].
      * by rewrite Hs1 in IH.
Qed.
(** C3. The fifo is a bounded FIFO queue. A sequence of [push] and [pop]
    calls on a fifo whose tail is below [Nm] (a new one, or one whose
    cursors have gone round any number of times) never has undefined
    behaviour and throws exactly when it pushes on [Nm] elements or pops
    from none. When all its calls return, the size has grown by the number
    of pushes minus the number of pops, the popped values are the leading
    elements of the old queue followed by the pushed values, in that
    order, and what remains is the rest of them; so [k] pushes followed by
    [k] pops on an empty fifo return the [k] values in order and leave
    [empty()] true and [free()] equal to [Nm]. *)
Theorem push_pop_fifo_law s cs :
  normal Nm s -> forallb push_or_pop cs = true ->
  match run Nm cs s with
  | Ret outs s' =>
      admissible Nm (size s) cs = true /\
      size s' = size s + Z.of_nat (length (pushed cs)) - Z.of_nat (pops cs) /\
      popped outs = take (pops cs) (contents s ++ pushed cs) /\
      contents s' = drop (pops cs) (contents s ++ pushed cs) /\
      free Nm s' = Nm - size s' /\
      (empty s' = true <-> size s' = 0) /\
      (full Nm s' = true <-> size s' = Nm) /\
      normal Nm s'
  | OutOfRange _ => admissible Nm (size s) cs = false
  | Undefined => False
  end.
Proof.
  intros Hn Hcs. pose proof (run_push_pop s cs Hn Hcs) as H.
  destruct (run Nm cs s) as [outs s'| |]; [|done|done].
  destruct H as (Ha & Hn' & Hs' & Hpo & Hco).
  destruct (normal_facts s' Hn') as (_ & Hsz & Hfr & Hb).
  split_and!; try done.
  - unfold empty. rewrite Z.eqb_eq. lia.
  - destruct Hn' as (_ & Ht & Hh). unfold full, max_size.
    assert (wrap (m_tail s' + Nm) = m_tail s' + Nm) as ->
      by (apply wrap_small; wrap_lia).
    rewrite Z.eqb_eq. lia.
Qed.

(** C4. [push_list] and [pop_list] are all-or-nothing. On every fifo,
    [push_list] of more than [free()] elements and [pop_list] of an
    explicit count above [size()] throw, and a throw of either leaves the
    object as it was: the check comes before any copy. On a fifo whose
    tail is below [Nm], a [push_list] of at most [free()] elements appends
    all of them and a [pop_list] of at most [size()] elements returns all
    of them. *)
Theorem bulk_calls_all_or_nothing vs n s :
  (free Nm s < Z.of_nat (length vs) -> push_list Nm vs s = OutOfRange s) /\
  (0 < n -> size s < n -> pop_list Nm n s = OutOfRange s) /\
  (forall s', push_list Nm vs s = OutOfRange s' ->
              s' = s /\ free Nm s < Z.of_nat (length vs)) /\
  (forall s', pop_list Nm n s = OutOfRange s' ->
              s' = s /\ 0 < n /\ size s < n) /\
  (normal Nm s -> Z.of_nat (length vs) <= free Nm s ->
   exists s', push_list Nm vs s = Ret tt s' /\
              contents s' = contents s ++ vs) /\
  (normal Nm s -> 0 < n <= size s ->
   exists s', pop_list Nm n s = Ret (take (Z.to_nat n) (contents s)) s' /\
              contents s' = drop (Z.to_nat n) (contents s)).
Proof.
  split_and!.
  - intros H. unfold push_list.
    by destruct (Z.ltb_spec (free Nm s) (Z.of_nat (length vs))); [|lia].
  - intros H0 H1. unfold pop_list.
    destruct (Z.ltb_spec 0 n); [|lia].
    by destruct (Z.ltb_spec (size s) n); [|lia].
  - intros s' H. unfold push_list in H.
    destruct (Z.ltb_spec (free Nm s) (Z.of_nat (length vs))).
    + by injection H as <-.
    + repeat case_match; discriminate.
  - intros s' H. unfold pop_list in H.
    destruct (Z.ltb_spec 0 n); destruct (Z.ltb_spec (size s) n); simpl in H;
      try (repeat case_match; discriminate).
    by injection H as <-.
  - intros Hn Hle.
    destruct (push_list_normal vs s Hn Hle) as (s' & Hp & _ & Hc & _).
    by exists s'.
  - intros Hn Hle. rewrite pop_list_normal by (done || lia).
    destruct (Z.eqb_spec n 0); [lia|]. eexists. split; [done|].
    apply increment_tail_normal; [done | lia].
Qed.

(** C6 (as amended). On an empty fifo whose tail is below [Nm],
    [push_list] of [k <= free()] elements followed at once by [pop_list]
    of [k] elements writes exactly those elements, in their order, to the
    destination, wherever the tail stands in the array, and leaves the
    fifo empty. *)
Theorem push_list_pop_list_roundtrip vs s :
  normal Nm s -> empty s = true -> Z.of_nat (length vs) <= free Nm s ->
  exists s1 s2,
    push_list Nm vs s = Ret tt s1 /\
    pop_list Nm (Z.of_nat (length vs)) s1 = Ret vs s2 /\
    empty s2 = true /\ contents s2 = [].
Proof.
  intros Hn He Hle. destruct (normal_facts s Hn) as (_ & Hsz & Hfr & Hb).
  unfold empty in He. apply Z.eqb_eq in He.
  pose proof (contents_length s Hn) as Hl.
  assert (contents s = []) as Hc by (apply length_zero_iff_nil; lia).
  destruct (push_list_normal vs s Hn Hle) as (s1 & Hp & Hn1 & Hc1 & Ht1 & Hh1).
  rewrite Hc in Hc1. simpl in Hc1.
  destruct (normal_facts s1 Hn1) as (_ & Hsz1 & _).
  exists s1, (increment_tail Nm (Z.of_nat (length vs)) s1).
  split; [done|].
  destruct (increment_tail_normal (Z.of_nat (length vs)) s1 Hn1)
    as (Hn2 & Hc2 & Hs2); [lia|].
  destruct (normal_facts _ Hn2) as (_ & Hsz2 & _).
  split_and!.
  - rewrite pop_list_normal by (done || lia).
    replace (if Z.of_nat (length vs) =? 0 then size s1
             else Z.of_nat (length vs)) with (Z.of_nat (length vs))
      by (destruct (Z.eqb_spec (Z.of_nat (length vs)) 0); lia).
    rewrite Hc1, Nat2Z.id, firstn_all. done.
  - unfold empty. apply Z.eqb_eq. lia.
  - rewrite Hc2, Hc1, Nat2Z.id. apply drop_all.
Qed.
End FifoQueue.

(** ** Reaching states by sequences of calls *)

Section Runs.
Context {T : Type}.
Variable Nm : Z.
Import Fifo.

Lemma run_reachable (allowed : call (T := T) -> bool) cs s outs s' :
  reachable_via Nm allowed s -> forallb allowed cs = true ->
  run Nm cs s = Ret outs s' -> reachable_via Nm allowed s'.
Proof.
  revert s outs. induction cs as [|c cs IH]; intros s outs Hr Hcs Hrun.
  - by injection Hrun as _ <-.
  - simpl in Hcs, Hrun. apply andb_true_iff in Hcs as [Hc Hcs].
    destruct (exec Nm c s) as [r s1| |] eqn:He; try discriminate.
    destruct (run Nm cs s1) as [outs1 s2| |] eqn:Hr1; try discriminate.
    injection Hrun as _ <-.
    eapply IH; [|done|done]. by eapply reach_call.
Qed.
End Runs.

(** ** The two [pop]s *)

Section PopVariants.
Context {T : Type}.
Variable Nm : Z.
Hypothesis Nm_pos : 0 < Nm.
Hypothesis Nm_max : Nm < 2 ^ 63.
Import Fifo.

End PopVariants.

(** ** Concrete runs *)

Section Examples.
Import Fifo.

(** C2 (the code departs from the claim). The claim: the tail stays in
    [0, Nm) under every sequence of public calls, [begin] and [end]
    included. [end()] adds [size()] to the tail without [increment_tail]:
    on a [cc::fifo<_, 3>], three pushes and [end()] leave the tail at 3,
    and the next [push] and [pop] read slot 3 of a 3-slot array. *)
Lemma end_leaves_tail_at_capacity :
  let s := {| elems := [1; 2; 3]; m_head := 3; m_tail := 3 |} in
  run 3 [Push 1; Push 2; Push 3; End_] (fifo_new [0; 0; 0])
    = Ret [VUnit; VUnit; VUnit; VIter 3] s /\
  reachable 3 s /\
  ~ m_tail s < 3 /\
  run 3 [Push 1; Push 2; Push 3; End_; Push 4; Pop] (fifo_new [0; 0; 0])
    = Undefined.
Proof.
  split; [reflexivity|]. split; [|split; [simpl; lia | reflexivity]].
  eapply (run_reachable 3 (fun _ => true)
            [Push 1; Push 2; Push 3; End_] (fifo_new [0; 0; 0]));
    [apply reach_new | |]; reflexivity.
Qed.

(** C6 (the claim as stated fails). On a fifo that already holds the
    element 9, with four free slots, [push_list] of 1, 2, 3 followed by
    [pop_list] of 3 elements writes 9, 1, 2 to the destination: the
    elements that were queued before come out first. *)
Lemma push_list_pop_list_older_elements_first :
  let s := {| elems := [9; 0; 0; 0; 0]; m_head := 1; m_tail := 0 |} in
  reachable 5 s /\
  Z.of_nat (length [1; 2; 3]) <= free 5 s /\
  exists s1 s2,
    push_list 5 [1; 2; 3] s = Ret tt s1 /\
    pop_list 5 (Z.of_nat (length [1; 2; 3])) s1 = Ret [9; 1; 2] s2 /\
    [9; 1; 2] <> [1; 2; 3].
Proof.
  split; [|split].
  - eapply (run_reachable 5 (fun _ => true) [Push 9]
              (fifo_new [0; 0; 0; 0; 0]));
      [apply reach_new | |]; reflexivity.
  - vm_compute. discriminate.
  - do 2 eexists. split; [reflexivity|]. split; [reflexivity|]. discriminate.
Qed.

Lemma push_pop_fifo_law_witness :
  let s := fifo_new [0; 0; 0] in
  let cs := [Push 1; Push 2; Push 3; Pop; Push 4; Pop; Push 5;
             Pop; Pop; Pop] in
  normal 3 s /\ forallb push_or_pop cs = true /\
  match run 3 cs s with
  | Ret outs s' =>
      admissible 3 (size s) cs = true /\
      size s' = size s + Z.of_nat (length (pushed cs)) - Z.of_nat (pops cs) /\
      popped outs = take (pops cs) (contents s ++ pushed cs) /\
      contents s' = drop (pops cs) (contents s ++ pushed cs) /\
      free 3 s' = 3 - size s' /\
      (empty s' = true <-> size s' = 0) /\
      (full 3 s' = true <-> size s' = 3) /\
      normal 3 s'
  | OutOfRange _ => admissible 3 (size s) cs = false
  | Undefined => False
  end.
Proof.
  intros s cs.
  assert (normal 3 s) as Hn by (unfold normal; simpl; lia).
  split; [exact Hn|]. split; [reflexivity|].
  apply (push_pop_fifo_law 3); [lia | lia | exact Hn | reflexivity].
Defined.

Lemma bulk_calls_all_or_nothing_witness :
  let s := {| elems := [1; 2; 3; 0; 0]; m_head := 3; m_tail := 0 |} in
  push_list 5 [7; 8; 9] s = OutOfRange s /\
  pop_list 5 4 s = OutOfRange s.
Proof.
  intros s.
  destruct (bulk_calls_all_or_nothing 5 ltac:(lia) ltac:(lia) [7; 8; 9] 4 s)
    as (Hpush & Hpop & _).
  split; [apply Hpush | apply Hpop]; vm_compute; reflexivity.
Defined.

Lemma push_list_pop_list_roundtrip_witness :
  let s := {| elems := [1; 2; 3; 4; 0]; m_head := 4; m_tail := 4 |} in
  normal 5 s /\ empty s = true /\ Z.of_nat (length [7; 8; 9]) <= free 5 s /\
  exists s1 s2,
    push_list 5 [7; 8; 9] s = Ret tt s1 /\
    pop_list 5 (Z.of_nat (length [7; 8; 9])) s1 = Ret [7; 8; 9] s2 /\
    empty s2 = true /\ contents s2 = [].
Proof.
  intros s.
  assert (normal 5 s) as Hn by (unfold normal; simpl; lia).
  assert (Z.of_nat (length [7; 8; 9]) <= free 5 s) as Hle
    by (vm_compute; discriminate).
  split; [exact Hn|]. split; [reflexivity|]. split; [exact Hle|].
  apply (push_list_pop_list_roundtrip 5); [lia | lia | exact Hn | reflexivity | exact Hle].
Defined.

Lemma reachable_size_invariant_witness :
  let s := {| elems := [1; 2; 3]; m_head := 3; m_tail := 3 |} in
  reachable 3 s /\
  0 <= size s <= 3 /\
  size s = wrap (m_head s - m_tail s) /\
  (full 3 s = true <-> size s = 3) /\
  (empty s = true <-> m_head s = m_tail s) /\
  (m_tail s + 3 < size_t_modulus ->
   0 <= m_head s - m_tail s <= 3 /\
   size s = m_head s - m_tail s /\
   (full 3 s = true <-> m_head s - m_tail s = 3)).
Proof.
  intros s.
  assert (reachable 3 s) as Hr.
  { eapply (run_reachable 3 (fun _ => true)
              [Push 1; Push 2; Push 3; End_] (fifo_new [0; 0; 0]));
      [apply reach_new | |]; reflexivity. }
  split; [exact Hr|].
  apply (reachable_size_invariant 3); [lia | reflexivity | exact Hr].
Defined.

Lemma end_consumes_begin_does_not_witness :
  let s := {| elems := [4; 5; 1; 2; 3]; m_head := 7; m_tail := 2 |} in
  wf 5 s /\
  begin s = Ret (m_tail s) s /\
  exists s',
    end_ s = Ret (m_head s) s' /\
    m_tail s' = wrap (m_tail s + size s) /\
    m_tail s' = m_head s /\
    m_head s' = m_head s /\
    elems s' = elems s /\
    empty s' = true /\
    size s' = 0 /\
    snd (range_for 5 s) = s' /\
    length (fst (range_for 5 s)) = Z.to_nat (size s).
Proof.
  intros s.
  assert (wf 5 s) as Hwf
    by (unfold wf, is_size_t, size_t_modulus; simpl; lia).
  split; [exact Hwf|]. apply (end_consumes_begin_does_not 5 s Hwf).
Defined.



Lemma push_full_throws_else_writes_witness :
  let s := {| elems := [4; 2; 3]; m_head := 4; m_tail := 1 |} in
  wf 3 s /\ size s = 3 /\
  full 3 s = true /\ push 3 5 s = OutOfRange s.
Proof.
  intros s.
  assert (wf 3 s) as Hwf
    by (unfold wf, is_size_t, size_t_modulus; simpl; lia).
  split; [exact Hwf|]. split; [reflexivity|].
  apply (push_full_throws_else_writes 3 ltac:(lia) ltac:(reflexivity) 5 s Hwf).
  reflexivity.
Defined.
End Examples.


(** * Further properties of the code *)

(** ** The buffer as a bounded vector *)

Section BufferVector.
Context {T : Type}.
Variable Nm : Z.
Hypothesis Nm_size_t : Nm < size_t_modulus.
Import Buffer.
Implicit Types (b : buffer (T := T)) (n m : Z) (v x : T) (l vs : list T).

Lemma bounded_wf b : bounded Nm b -> wf Nm b.
Proof. intros [Hlen Hu]. split; [done|]. unfold is_size_t. lia. Qed.

Lemma new_bounded (a : list T) :
  Z.of_nat (length a) = Nm -> bounded Nm (buffer_new a).
Proof. intros Ha. unfold bounded. simpl. lia. Qed.

(** A range-based [for] over a bounded buffer visits its first [m_used]
    slots. *)
Lemma iterate_bounded b :
  bounded Nm b -> iterate b = Some (take (Z.to_nat (m_used b)) (elems b)).
Proof.
  intros [Hlen Hu]. unfold iterate, copy_out.
  rewrite Z.add_0_l. change (Z.to_nat 0) with 0%nat.
  destruct (Z.leb_spec 0 (m_used b)); [|lia].
  destruct (Z.leb_spec (m_used b) (Z.of_nat (length (elems b)))); [|lia].
  done.
Qed.

Lemma subscript_insert_ne (a : list T) (i : Z) v n (u : Z) :
  0 <= i -> n <> i ->
  subscript n {| elems := <[Z.to_nat i := v]> a; m_used := u |}
  = array_get a n.
Proof.
  intros Hi Hne. unfold subscript, array_get. simpl.
  destruct (Z.leb_spec 0 n); [|done].
  apply list_lookup_insert_ne. lia.
Qed.

(** One [push_back]. *)
Lemma push_back_step v b :
  bounded Nm b ->
  (m_used b = Nm -> push_back Nm v b = OutOfRange b) /\
  (m_used b < Nm ->
   exists b' l,
     push_back Nm v b = Ret tt b' /\ bounded Nm b' /\
     iterate b = Some l /\ iterate b' = Some (l ++ [v]) /\
     size b' = size b + 1 /\
     forall n, n <> m_used b -> subscript n b' = subscript n b).
Proof.
  intros Hb. pose proof (iterate_bounded b Hb) as Hit.
  destruct Hb as [Hlen Hu]. unfold push_back. split.
  - intros E. destruct (Z.leb_spec Nm (m_used b)); [done|lia].
  - intros Hlt. destruct (Z.leb_spec Nm (m_used b)); [lia|].
    unfold array_set.
    destruct (Z.leb_spec 0 (m_used b)); [|lia].
    destruct (Z.ltb_spec (m_used b) (Z.of_nat (length (elems b)))); [|lia].
    simpl.
    assert (wrap (m_used b + 1) = m_used b + 1) as ->
      by (apply wrap_small; unfold is_size_t; lia).
    do 2 eexists. split; [done|].
    assert (bounded Nm {| elems := <[Z.to_nat (m_used b):=v]> (elems b);
                          m_used := m_used b + 1 |}) as Hb'
      by (unfold bounded; simpl; rewrite length_insert; lia).
    split; [done|]. split; [exact Hit|].
    split; [|split; [done|]].
    + rewrite iterate_bounded by done. simpl. f_equal.
      replace (Z.to_nat (m_used b + 1)) with (S (Z.to_nat (m_used b))) by lia.
      rewrite (take_S_r _ _ v) by (apply list_lookup_insert_eq; lia).
      by rewrite take_insert_ge by lia.
    + intros n Hn. by apply subscript_insert_ne.
Qed.

(** One [pop_back]. *)
Lemma pop_back_step b l :
  bounded Nm b -> iterate b = Some l ->
  (l = [] -> pop_back Nm b = OutOfRange b) /\
  (forall l' x, l = l' ++ [x] ->
     exists b', pop_back Nm b = Ret x b' /\ bounded Nm b' /\
                iterate b' = Some l' /\ elems b' = elems b /\
                size b' = size b - 1).
Proof.
  intros Hb Hit. rewrite (iterate_bounded b Hb) in Hit.
  injection Hit as <-. destruct Hb as [Hlen Hu].
  assert (length (take (Z.to_nat (m_used b)) (elems b))
          = Z.to_nat (m_used b)) as Hl by (rewrite length_take; lia).
  unfold pop_back. split.
  - intros E. rewrite E in Hl. simpl in Hl.
    destruct (Z.eqb_spec (m_used b) 0); [done|lia].
  - intros l' x E. rewrite E, length_app in Hl. simpl in Hl.
    destruct (Z.eqb_spec (m_used b) 0); [lia|].
    assert (wrap (m_used b - 1) = m_used b - 1) as ->
      by (apply wrap_small; unfold is_size_t; lia).
    assert (elems b !! Z.to_nat (m_used b - 1) = Some x) as Hx.
    { rewrite <- (lookup_take_lt _ (Z.to_nat (m_used b))) by lia.
      rewrite E. replace (Z.to_nat (m_used b - 1)) with (length l') by lia.
      by rewrite lookup_app_r, Nat.sub_diag by lia. }
    unfold at_, array_get.
    destruct (Z.leb_spec Nm (m_used b - 1)); [lia|].
    destruct (Z.leb_spec 0 (m_used b - 1)); [|lia].
    rewrite Hx. eexists. split; [done|].
    assert (bounded Nm {| elems := elems b; m_used := m_used b - 1 |}) as Hb'
      by (unfold bounded; simpl; lia).
    split; [done|]. rewrite iterate_bounded by done. simpl.
    split; [|done]. f_equal.
    replace (Z.to_nat (m_used b - 1)) with (length l') by lia.
    apply (f_equal (take (length l'))) in E.
    rewrite take_take, Nat.min_l, take_app_length in E by lia. done.
Qed.

(** X1. [push_back] on a buffer whose size is [Nm] throws and leaves it as
    it was; below [Nm] it appends [v] to the sequence that iteration
    visits, adds 1 to the size and touches no other slot. *)
Theorem push_back_appends v b :
  bounded Nm b ->
  (m_used b = Nm -> push_back Nm v b = OutOfRange b) /\
  (m_used b < Nm ->
   exists b' l,
     push_back Nm v b = Ret tt b' /\ bounded Nm b' /\
     iterate b = Some l /\ iterate b' = Some (l ++ [v]) /\
     size b' = size b + 1 /\
     forall n, n <> m_used b -> subscript n b' = subscript n b).
Proof. apply push_back_step. Qed.

(** X2. [pop_back] on a buffer that iteration finds empty throws and leaves
    it as it was; otherwise it returns the last element that iteration
    visits and removes it from that sequence, leaving every slot as it
    was. *)
Theorem pop_back_removes_last b l :
  bounded Nm b -> iterate b = Some l ->
  (l = [] -> pop_back Nm b = OutOfRange b) /\
  (forall l' x, l = l' ++ [x] ->
     exists b', pop_back Nm b = Ret x b' /\ bounded Nm b' /\
                iterate b' = Some l' /\ elems b' = elems b /\
                size b' = size b - 1).
Proof. apply pop_back_step. Qed.

Lemma run_cons c cs b :
  run Nm (c :: cs) b =
    match exec Nm c b with
    | Ret r b' => omap_ret (cons r) (run Nm cs b')
    | OutOfRange b' => OutOfRange b'
    | Undefined => Undefined
    end.
Proof. done. Qed.

Lemma run_push_backs vs b :
  bounded Nm b -> Z.of_nat (length vs) <= Nm - m_used b ->
  exists b',
    run Nm (PushBack <$> vs) b = Ret (replicate (length vs) VUnit) b' /\
    bounded Nm b' /\
    iterate b' = Some (take (Z.to_nat (m_used b)) (elems b) ++ vs) /\
    m_used b' = m_used b + Z.of_nat (length vs).
Proof.
  revert b. induction vs as [|v vs IH]; intros b Hb Hle.
  - exists b. rewrite app_nil_r, iterate_bounded by done.
    split_and!; try done. simpl. lia.
  - simpl in Hle.
    destruct (push_back_step v b Hb) as [_ Hp].
    destruct Hp as (b1 & l & Hp & Hb1 & Hl & Hl1 & Hs1 & _); [lia|].
    rewrite iterate_bounded in Hl by done. injection Hl as <-.
    unfold size in Hs1.
    destruct (IH b1 Hb1) as (b' & Hr & Hb' & Hit & Hu); [lia|].
    exists b'. rewrite fmap_cons, run_cons. cbn [exec].
    rewrite Hp. cbn [omap_ret]. rewrite Hr. cbn [omap_ret length replicate].
    split_and!; try done; [|lia].
    rewrite Hit. rewrite iterate_bounded in Hl1 by done.
    injection Hl1 as ->. by rewrite <- app_assoc.
Qed.

Lemma run_pop_backs k : forall l b,
  bounded Nm b -> iterate b = Some (l ++ k) ->
  exists b',
    run Nm (replicate (length k) PopBack) b = Ret (VElem <$> reverse k) b' /\
    bounded Nm b' /\ iterate b' = Some l /\ elems b' = elems b /\
    m_used b' = m_used b - Z.of_nat (length k).
Proof.
  induction k as [|x k IH] using rev_ind; intros l b Hb Hit.
  - exists b. rewrite app_nil_r in Hit. simpl. split_and!; try done. lia.
  - rewrite app_assoc in Hit.
    destruct (pop_back_step b _ Hb Hit) as [_ Hp].
    destruct (Hp (l ++ k) x eq_refl) as (b1 & Hp1 & Hb1 & Hit1 & He1 & Hs1).
    unfold size in Hs1.
    destruct (IH l b1 Hb1 Hit1) as (b' & Hr & Hb' & Hit' & He' & Hu').
    exists b'. rewrite length_app, Nat.add_comm.
    cbn [length Nat.add replicate]. rewrite run_cons. cbn [exec].
    rewrite Hp1. cbn [omap_ret]. rewrite Hr. cbn [omap_ret].
    rewrite reverse_app. cbn [length].
    split_and!; try done; [congruence | lia].
Qed.

(** X3. The buffer is a stack at its end: [push_back] of the elements of
    [vs] one after the other, on a bounded buffer with room for them, makes
    iteration visit the old elements followed by [vs]; as many [pop_back]
    calls then return the elements of [vs] last first and put the size and
    the visited sequence back. *)
Theorem push_back_pop_back_lifo vs b :
  bounded Nm b -> Z.of_nat (length vs) <= Nm - m_used b ->
  exists b1 b2 l,
    iterate b = Some l /\
    run Nm (PushBack <$> vs) b = Ret (replicate (length vs) VUnit) b1 /\
    iterate b1 = Some (l ++ vs) /\
    size b1 = size b + Z.of_nat (length vs) /\
    run Nm (replicate (length vs) PopBack) b1 = Ret (VElem <$> reverse vs) b2 /\
    iterate b2 = Some l /\ size b2 = size b.
Proof.
  intros Hb Hle.
  destruct (run_push_backs vs b Hb Hle) as (b1 & Hr1 & Hb1 & Hit1 & Hu1).
  destruct (run_pop_backs vs _ b1 Hb1 Hit1) as (b2 & Hr2 & Hb2 & Hit2 & _ & Hu2).
  exists b1, b2, (take (Z.to_nat (m_used b)) (elems b)).
  rewrite iterate_bounded by done. unfold size. split_and!; try done. lia.
Qed.

Lemma get_ret_unchanged n b x b' : get Nm n b = Ret x b' -> b' = b.
Proof. unfold get, at_. repeat case_match; congruence. Qed.

Lemma exec_bounded c b (r : value) b' :
  within_capacity Nm c = true -> bounded Nm b -> exec Nm c b = Ret r b' ->
  bounded Nm b'.
Proof.
  intros Hc Hb He. pose proof Hb as [Hlen Hu].
  destruct c as [n|n|n v|v| |v|v]; simpl in He, Hc.
  - injection He as _ <-. unfold bounded. simpl. lia.
  - destruct (get Nm n b) as [x b1| |] eqn:Hg; try discriminate.
    injection He as _ <-. by rewrite (get_ret_unchanged _ _ _ _ Hg).
  - unfold assign, array_set in He.
    destruct (Z.leb_spec Nm n); [discriminate|].
    destruct (Z.leb_spec 0 n); [|discriminate].
    destruct (Z.ltb_spec n (Z.of_nat (length (elems b)))); [|discriminate].
    injection He as _ <-. unfold bounded. simpl. rewrite length_insert.
    assert (wrap (n + 1) = n + 1) as ->
      by (apply wrap_small; unfold is_size_t; lia).
    lia.
  - destruct (decide (m_used b < Nm)) as [Hlt|Hge].
    + destruct (push_back_step v b Hb) as [_ Hp].
      destruct (Hp Hlt) as (b1 & l & Hp1 & Hb1 & _). rewrite Hp1 in He.
      by injection He as _ <-.
    + destruct (push_back_step v b Hb) as [Hp _].
      rewrite Hp in He by lia. discriminate.
  - unfold pop_back in He.
    destruct (Z.eqb_spec (m_used b) 0); [discriminate|].
    destruct (at_ _ _ _) as [x b1| |]; try discriminate.
    injection He as _ <-. unfold bounded. simpl.
    assert (wrap (m_used b - 1) = m_used b - 1) as ->
      by (apply wrap_small; unfold is_size_t; lia).
    lia.
  - unfold fill_used, fill_n in He.
    destruct (Z.leb_spec (m_used b) (Z.of_nat (length (elems b))));
      [|discriminate].
    injection He as _ <-. unfold bounded. simpl.
    rewrite length_app, length_replicate, length_drop. lia.
  - unfold fill_all, fill_n, max_size in He.
    destruct (Z.leb_spec Nm (Z.of_nat (length (elems b)))); [|discriminate].
    injection He as _ <-. unfold bounded. simpl.
    rewrite length_app, length_replicate, length_drop. lia.
Qed.

(** X4. Every state a buffer reaches from its construction, through calls
    whose [reset] arguments stay within [Nm], has a size in [0, Nm], and
    [size()] and [free()] add up to the capacity. *)
Theorem buffer_calls_keep_bounded b :
  reachable Nm b ->
  Z.of_nat (length (elems b)) = Nm /\
  0 <= size b <= Nm /\
  size b + free Nm b = Nm.
Proof.
  intros Hr.
  assert (bounded Nm b) as [Hlen Hu].
  { induction Hr as [a Ha | b c r b' _ IH Hc He].
    - by apply new_bounded.
    - eapply exec_bounded; eauto. }
  unfold size, free, max_size. split_and!; try done; try lia.
  rewrite wrap_small by (unfold is_size_t; lia). lia.
Qed.
(** X5. [fill_all] makes the size [Nm] and every slot [v]: nothing is
    free, iteration visits [Nm] copies of [v], and [get(n)] returns [v] at
    every index below [Nm]. *)
Theorem fill_all_fills v b :
  Z.of_nat (length (elems b)) = Nm ->
  exists b',
    fill_all Nm v b = Ret tt b' /\
    size b' = Nm /\ free Nm b' = 0 /\
    iterate b' = Some (replicate (Z.to_nat Nm) v) /\
    forall n, 0 <= n < Nm -> get Nm n b' = Ret v b'.
Proof.
  intros Hlen. unfold fill_all, fill_n, max_size.
  destruct (Z.leb_spec Nm (Z.of_nat (length (elems b)))); [|lia].
  rewrite drop_ge, app_nil_r by lia.
  eexists. split; [done|].
  assert (bounded Nm {| elems := replicate (Z.to_nat Nm) v; m_used := Nm |})
    as Hb by (unfold bounded; simpl; rewrite length_replicate; lia).
  unfold size, free, max_size. simpl. split; [done|].
  split; [rewrite Z.sub_diag; apply wrap_small; unfold is_size_t, size_t_modulus; lia|].
  split.
  - rewrite iterate_bounded by done. simpl.
    by rewrite take_ge by (rewrite length_replicate; lia).
  - intros n Hn. unfold get, at_, array_get. simpl.
    destruct (Z.ltb_spec Nm n); [lia|].
    destruct (Z.leb_spec Nm n); [lia|].
    destruct (Z.leb_spec 0 n); [|lia].
    by rewrite lookup_replicate_2 by lia.
Qed.

(** X6. [fill_used] on a buffer whose size is within [Nm] overwrites the
    elements that iteration visits with [v] and nothing else: the size and
    the slots from [m_used] on stay as they were. When the size has been
    forced above [Nm], it writes outside the array. *)
Theorem fill_used_fills v b :
  wf Nm b ->
  (m_used b <= Nm ->
   exists b',
     fill_used v b = Ret tt b' /\ size b' = size b /\
     iterate b' = Some (replicate (Z.to_nat (m_used b)) v) /\
     forall n, m_used b <= n -> subscript n b' = subscript n b) /\
  (Nm < m_used b -> fill_used v b = Undefined).
Proof.
  intros [Hlen Hu]. unfold is_size_t in Hu. unfold fill_used, fill_n. split.
  - intros Hle.
    destruct (Z.leb_spec (m_used b) (Z.of_nat (length (elems b)))); [|lia].
    eexists. split; [done|]. split; [done|].
    assert (bounded Nm
              {| elems := replicate (Z.to_nat (m_used b)) v
                          ++ drop (Z.to_nat (m_used b)) (elems b);
                 m_used := m_used b |}) as Hb.
    { unfold bounded. simpl.
      rewrite length_app, length_replicate, length_drop. lia. }
    split.
    + rewrite iterate_bounded by done. simpl.
      by rewrite take_app_length' by (rewrite length_replicate; lia).
    + intros n Hn. unfold subscript, array_get. simpl.
      destruct (Z.leb_spec 0 n); [|done].
      rewrite lookup_app_r by (rewrite length_replicate; lia).
      rewrite length_replicate, lookup_drop. f_equal. lia.
  - intros Hgt.
    by destruct (Z.leb_spec (m_used b) (Z.of_nat (length (elems b)))); [lia|].
Qed.

(** X7. [assign(n, v)] throws and changes nothing when [n >= Nm]. Below
    [Nm] it sets slot [n] and no other; the sequence that iteration visits
    becomes the first [max(size, n + 1)] slots with [v] at place [n], so an
    [assign] at or past the size brings the slots in between into the
    sequence with whatever they held. *)
Theorem assign_extends n v b :
  bounded Nm b -> 0 <= n ->
  (Nm <= n -> assign Nm n v b = OutOfRange b) /\
  (n < Nm ->
   exists b',
     assign Nm n v b = Ret tt b' /\ bounded Nm b' /\
     iterate b' =
       Some (<[Z.to_nat n := v]>
               (take (Z.to_nat (Z.max (m_used b) (n + 1))) (elems b))) /\
     forall m, m <> n -> subscript m b' = subscript m b).
Proof.
  intros [Hlen Hu] Hn. unfold assign. split.
  - intros Hge. by destruct (Z.leb_spec Nm n); [|lia].
  - intros Hlt. destruct (Z.leb_spec Nm n); [lia|]. unfold array_set.
    destruct (Z.leb_spec 0 n); [|lia].
    destruct (Z.ltb_spec n (Z.of_nat (length (elems b)))); [|lia].
    simpl.
    assert (wrap (n + 1) = n + 1) as ->
      by (apply wrap_small; unfold is_size_t; lia).
    eexists. split; [done|].
    assert (bounded Nm {| elems := <[Z.to_nat n:=v]> (elems b);
                          m_used := Z.max (m_used b) (n + 1) |}) as Hb'
      by (unfold bounded; simpl; rewrite length_insert; lia).
    split; [done|]. split.
    + rewrite iterate_bounded by done. simpl.
      by rewrite take_insert_lt by lia.
    + intros m Hm. by apply subscript_insert_ne.
Qed.
End BufferVector.

(** ** The fifo object under any cursors *)

Section FifoObject.
Context {T : Type}.
Variable Nm : Z.
Hypothesis Nm_pos : 0 < Nm.
Hypothesis Nm_size_t : Nm < size_t_modulus.
Import Fifo.
Implicit Types (s : fifo (T := T)) (v x : T) (a vs : list T) (n : Z).

(** X8. What [pop] does on any well-formed object: it throws, changing
    nothing, exactly when the cursors are equal; it reads outside the array
    exactly when they differ and the tail is at or above [Nm]; and with the
    tail below [Nm] it returns the element of the tail slot. *)
Theorem pop_outcomes s :
  wf Nm s ->
  (pop Nm s = OutOfRange s <-> m_head s = m_tail s) /\
  (pop Nm s = Undefined <-> m_head s <> m_tail s /\ Nm <= m_tail s) /\
  (m_head s <> m_tail s -> m_tail s < Nm ->
   exists x, elems s !! Z.to_nat (m_tail s) = Some x /\
             pop Nm s = Ret x (increment_tail Nm 1 s)).
Proof.
  intros (Hlen & Hh & Ht). unfold is_size_t in Ht.
  unfold pop, empty, array_get.
  destruct (Z.eqb_spec (m_head s) (m_tail s)) as [E|E].
  - split; [done|]. split; [|done]. split; [done|]. by intros [? _].
  - destruct (Z.leb_spec 0 (m_tail s)); [|lia].
    destruct (elems s !! Z.to_nat (m_tail s)) as [x|] eqn:Hx.
    + apply lookup_lt_Some in Hx as Hlt.
      split; [done|]. split; [split; [done | lia]|]. by exists x.
    + apply lookup_ge_None in Hx.
      split; [done|]. split; [split; [intros _; lia | done]|]. lia.
Qed.

(** X9. In every state a fifo reaches through its public calls, [size()]
    and [free()] add up to the capacity. *)
Theorem size_plus_free s : reachable Nm s -> size s + free Nm s = Nm.
Proof.
  intros Hr.
  apply (reachable_sized Nm Nm_pos Nm_size_t) in Hr as [(_ & Hh & Ht) Hsz].
  unfold free, max_size, size in *. wrap_lia.
Qed.

Lemma exec_B_wf (c : call_B) s (r : value) s' :
  wf Nm s -> exec_B Nm c s = Ret r s' -> wf Nm s'.
Proof.
  intros (Hlen & Hh & Ht) He. destruct c as [|v| |vs]; simpl in He.
  - injection He as _ <-. unfold wf, is_size_t, size_t_modulus. simpl. lia.
  - unfold push_B, array_set in He. repeat case_match; try discriminate.
    injection He as _ <-. simplify_eq. unfold wf. simpl.
    rewrite length_insert. split_and!; try done. apply wrap_is_size_t.
  - unfold pop_B in He. repeat case_match; try discriminate;
      injection He as _ <-; unfold wf; simpl;
      split_and!; try done; try apply wrap_is_size_t.
  - injection He as _ <-. done.
Qed.

(** X10. The second [fifo] class of the header behaves as the first under
    [truncate], [push] and [pop]: on every well-formed object, a sequence of
    these calls has the same outcome (returned values, exception, final
    array and cursors) as the sequence of [clear], [push] and [pop] calls of
    the first class. *)
Theorem second_class_agrees (cs : list call_B) s :
  wf Nm s -> forallb implemented_B cs = true ->
  run_B Nm cs s = run Nm (as_first <$> cs) s.
Proof.
  revert s. induction cs as [|c cs IH]; intros s Hwf Hcs; [done|].
  simpl in Hcs. apply andb_true_iff in Hcs as [Hc Hcs].
  rewrite fmap_cons. cbn [run_B run].
  assert (exec_B Nm c s = exec Nm (as_first c) s) as He.
  { destruct c as [|v| |vs]; try done. simpl.
    by rewrite (pop_eq_pop_B Nm Nm_pos s Hwf). }
  rewrite <- He. destruct (exec_B Nm c s) as [r s1| |] eqn:E; try done.
  rewrite IH; [done | by eapply exec_B_wf | done].
Qed.
End FifoObject.

(** ** Bulk calls, single calls and iteration *)

Section RingWrites.
Context {T : Type}.
Implicit Types (a vs : list T) (v : T).
Local Open Scope nat_scope.

(** The two runs of a bulk write of [v :: vs] are the write of [v] followed
    by the two runs of a bulk write of [vs] one slot further. *)
Lemma ring_write_cons a hm v vs :
  hm < length a -> S (length vs) <= length a ->
  let n1 := min (S (length vs)) (length a - hm) in
  let hm' := slot (length a) (S hm) in
  let n1' := min (length vs) (length a - hm') in
  list_inserts 0 (drop n1 (v :: vs)) (list_inserts hm (take n1 (v :: vs)) a)
  = list_inserts 0 (drop n1' vs)
      (list_inserts hm' (take n1' vs) (<[hm := v]> a)).
Proof.
  intros Hhm Hlen n1 hm' n1'.
  assert (n1 = S (min (length vs) (length a - hm - 1))) as -> by lia.
  cbn [take drop list_inserts].
  rewrite list_insert_inserts_lt by lia.
  subst hm' n1'. unfold slot. case_decide.
  - by replace (length a - hm - 1) with (length a - S hm) by lia.
  - replace (length a - hm - 1) with 0 by lia.
    replace (S hm - length a) with 0 by lia.
    rewrite Nat.min_0_r, Nat.sub_0_r, Nat.min_l by lia.
    by rewrite take_0, drop_0, firstn_all, drop_all.
Qed.
End RingWrites.

Section FifoBulk.
Context {T : Type}.
Variable Nm : Z.
Hypothesis Nm_pos : 0 < Nm.
Hypothesis Nm_max : Nm < 2 ^ 63.
Import Fifo.
Implicit Types (s : fifo (T := T)) (v x : T) (a vs q : list T) (n : Z).

Ltac copy_fits :=
  match goal with
  | |- context [if ?c then _ else _] =>
      let C := fresh "C" in
      destruct c eqn:C;
      [| exfalso;
         repeat (apply andb_false_iff in C as [C|C]);
         apply Z.leb_gt in C;
         rewrite ?length_take, ?length_drop, ?length_inserts in C; lia ]
  end.

(** The array and the cursors a returning [push_list] leaves. *)
Lemma push_list_state vs s :
  normal Nm s -> Z.of_nat (length vs) <= free Nm s ->
  let hm := Z.to_nat (head_modulo Nm s) in
  let n1 := (length vs `min` (length (elems s) - hm))%nat in
  push_list Nm vs s =
    Ret tt {| elems := list_inserts 0 (drop n1 vs)
                         (list_inserts hm (take n1 vs) (elems s));
              m_head := m_head s + Z.of_nat (length vs);
              m_tail := m_tail s |}.
Proof.
  intros Hn Hfree hm n1.
  destruct (normal_facts Nm Nm_max s Hn) as (_ & Hsz & Hfr & Hb).
  destruct Hn as (Hlen & Ht & Hh).
  assert (0 <= head_modulo Nm s < Nm) as Hm
    by (apply Z.mod_pos_bound; done).
  assert (wrap (max_size Nm s - head_modulo Nm s) = Nm - head_modulo Nm s)
    as Hw by (unfold max_size; apply wrap_small; wrap_lia).
  assert (wrap (m_head s + Z.of_nat (length vs))
          = m_head s + Z.of_nat (length vs)) as Hw'
    by (apply wrap_small; wrap_lia).
  unfold push_list. destruct (Z.ltb_spec (free Nm s) (Z.of_nat (length vs)));
    [lia|].
  rewrite Hw, Hw'.
  replace (Z.to_nat (Z.min (Z.of_nat (length vs)) (Nm - head_modulo Nm s)))
    with n1 by (subst n1 hm; lia).
  unfold copy_in. copy_fits. copy_fits. done.
Qed.

Lemma push_state v s :
  normal Nm s -> size s < Nm ->
  push Nm v s =
    Ret tt {| elems := <[Z.to_nat (head_modulo Nm s) := v]> (elems s);
              m_head := m_head s + 1;
              m_tail := m_tail s |}.
Proof.
  intros Hn Hlt.
  destruct (normal_facts Nm Nm_max s Hn) as (_ & Hsz & Hfr & Hb).
  rewrite (push_eq_push_list Nm Nm_pos Nm_max v s Hn).
  rewrite push_list_state by (done || simpl; lia).
  pose proof (Z.mod_pos_bound (m_head s) Nm Nm_pos) as Hm.
  destruct Hn as (Hlen & Ht & Hh). unfold head_modulo, max_size in *.
  cbn [length].
  replace (1 `min` (length (elems s) - Z.to_nat (m_head s mod Nm)))%nat
    with 1%nat by lia.
  done.
Qed.

(** A [push_list] of [v :: vs] is a [push] of [v] followed by a
    [push_list] of [vs]. *)
Lemma push_list_cons v vs s :
  normal Nm s -> Z.of_nat (length (v :: vs)) <= free Nm s ->
  exists s1,
    push Nm v s = Ret tt s1 /\ normal Nm s1 /\ free Nm s1 = free Nm s - 1 /\
    push_list Nm (v :: vs) s = push_list Nm vs s1.
Proof.
  intros Hn Hle.
  destruct (normal_facts Nm Nm_max s Hn) as (_ & Hsz & Hfr & Hb).
  cbn [length] in Hle.
  destruct (push_normal Nm Nm_pos Nm_max v s Hn) as (s1 & Hp & Hn1 & _ & Hs1);
    [lia|].
  destruct (normal_facts Nm Nm_max s1 Hn1) as (_ & _ & Hfr1 & _).
  exists s1. split; [done|]. split; [done|]. split; [lia|].
  rewrite push_state in Hp by (done || lia). injection Hp as <-.
  pose proof (Z.mod_pos_bound (m_head s) Nm Nm_pos) as Hm.
  pose proof (Z.mod_pos_bound (m_head s + 1) Nm Nm_pos) as Hm1.
  rewrite !push_list_state by (done || cbn [length]; lia).
  pose proof Hn as (Hlen & Ht & Hh).
  unfold head_modulo, max_size in *. simpl.
  rewrite length_insert. f_equal. f_equal; [|lia].
  pose proof (ring_write_cons (elems s) (Z.to_nat (m_head s mod Nm)) v vs) as W.
  simpl in W. rewrite W by lia. clear W.
  assert (Z.to_nat ((m_head s + 1) mod Nm)
          = slot (length (elems s)) (S (Z.to_nat (m_head s mod Nm)))) as ->.
  { unfold slot. rewrite !mod_one_turn by lia.
    destruct (Z.ltb_spec (m_head s) Nm);
      destruct (Z.ltb_spec (m_head s + 1) Nm); case_decide; lia. }
  done.
Qed.

(** X11. [push_list] is [push] repeated: on a fifo whose tail is below [Nm]
    and that has room for [vs], pushing the elements of [vs] one by one
    returns and leaves exactly the object, array and cursors, that
    [push_list] of [vs] leaves. *)
Theorem push_list_as_pushes vs s :
  normal Nm s -> Z.of_nat (length vs) <= free Nm s ->
  exists s',
    push_list Nm vs s = Ret tt s' /\
    run Nm (Push <$> vs) s = Ret (replicate (length vs) VUnit) s'.
Proof.
  revert s. induction vs as [|v vs IH]; intros s Hn Hle.
  - exists s. split; [|done].
    rewrite push_list_state by done. simpl. rewrite Z.add_0_r.
    by destruct s.
  - destruct (push_list_cons v vs s Hn Hle) as (s1 & Hp & Hn1 & Hf1 & E).
    cbn [length] in Hle.
    destruct (IH s1 Hn1) as (s' & Hpl & Hr); [lia|].
    exists s'. split; [by rewrite E|].
    rewrite fmap_cons. cbn [run exec]. rewrite Hp. cbn [omap_ret].
    rewrite Hr. done.
Qed.
Lemma increment_tail_add (i j : Z) s :
  normal Nm s -> 0 <= i -> 0 <= j -> i + j <= size s ->
  increment_tail Nm j (increment_tail Nm i s) = increment_tail Nm (i + j) s.
Proof.
  intros Hn Hi Hj Hij.
  destruct (normal_facts Nm Nm_max s Hn) as (_ & Hsz & _ & Hbd).
  destruct Hn as (Hlen & Ht & Hh).
  unfold increment_tail, max_size.
  rewrite (wrap_small (m_tail s + i)), (wrap_small (m_tail s + (i + j)))
    by wrap_lia.
  destruct (Z.leb_spec Nm (m_tail s + i)); simpl.
  - rewrite (wrap_small (m_head s - Nm)), (wrap_small (m_tail s + i - Nm))
      by wrap_lia.
    rewrite (wrap_small (m_tail s + i - Nm + j)) by wrap_lia.
    destruct (Z.leb_spec Nm (m_tail s + i - Nm + j)); [lia|].
    destruct (Z.leb_spec Nm (m_tail s + (i + j))); [|lia].
    f_equal. rewrite wrap_small by wrap_lia. lia.
  - replace (m_tail s + i + j) with (m_tail s + (i + j)) by lia.
    by rewrite (wrap_small (m_tail s + (i + j))) by wrap_lia.
Qed.

Lemma run_pops (k : nat) : forall s,
  normal Nm s -> Z.of_nat (S k) <= size s ->
  run Nm (replicate (S k) Pop) s
  = Ret (VElem <$> take (S k) (contents s))
        (increment_tail Nm (Z.of_nat (S k)) s).
Proof.
  induction k as [|k IH]; intros s Hn Hle;
    pose proof (contents_length Nm Nm_max s Hn) as Hl;
    destruct (contents s) as [|x q] eqn:Hc; simpl in Hl; try lia;
    destruct (pop_normal Nm Nm_pos Nm_max s x q Hn Hc)
      as (Hp & Hn1 & Hc1 & Hs1).
  - cbn [replicate run exec]. rewrite Hp. done.
  - rewrite replicate_S. cbn [run exec]. rewrite Hp. cbn [omap_ret].
    rewrite IH by (done || lia). cbn [omap_ret]. rewrite Hc1.
    rewrite increment_tail_add by (done || lia).
    f_equal. f_equal. lia.
Qed.

(** X12. [pop_list] is [pop] repeated: on a fifo whose tail is below [Nm],
    [n] single pops, for [0 < n <= size()], return the values that
    [pop_list(dst, n)] writes to [dst], in the same order, and leave
    exactly the object that [pop_list] leaves. *)
Theorem pop_list_as_pops n s :
  normal Nm s -> 0 < n <= size s ->
  exists out s',
    pop_list Nm n s = Ret out s' /\
    run Nm (replicate (Z.to_nat n) Pop) s = Ret (VElem <$> out) s'.
Proof.
  intros Hn Hle. do 2 eexists. split.
  - rewrite (pop_list_normal Nm Nm_pos Nm_max n s Hn) by lia.
    destruct (Z.eqb_spec n 0); [lia|]. done.
  - replace (Z.to_nat n) with (S (Z.to_nat n - 1)) by lia.
    rewrite run_pops by (done || lia).
    f_equal. f_equal. lia.
Qed.

(** X13. [pop_list] with the default count 0 takes everything: on a fifo
    whose tail is below [Nm] it returns the whole queue, oldest element
    first, and leaves the fifo empty. *)
Theorem pop_list_default_drains s :
  normal Nm s ->
  exists s',
    pop_list Nm 0 s = Ret (contents s) s' /\
    normal Nm s' /\ empty s' = true /\ contents s' = [].
Proof.
  intros Hn. destruct (normal_facts Nm Nm_max s Hn) as (_ & Hsz & _ & Hb).
  pose proof (contents_length Nm Nm_max s Hn) as Hl.
  destruct (increment_tail_normal Nm Nm_pos Nm_max (size s) s Hn)
    as (Hn' & Hc' & Hs'); [lia|].
  destruct (normal_facts Nm Nm_max _ Hn') as (_ & Hsz' & _).
  exists (increment_tail Nm (size s) s). split_and!; try done.
  - rewrite (pop_list_normal Nm Nm_pos Nm_max 0 s Hn) by lia. simpl.
    by rewrite take_ge by lia.
  - unfold empty. apply Z.eqb_eq. lia.
  - rewrite Hc'. apply drop_ge. lia.
Qed.

Lemma visit_lookup a (k : nat) : forall (i : Z) (j : nat),
  0 <= i -> i + Z.of_nat k < size_t_modulus ->
  visit Nm a i k !! j =
    if decide (j < k)%nat then Some (deref Nm a (i + Z.of_nat j)) else None.
Proof.
  induction k as [|k IH]; intros i j Hi Hk; cbn [visit].
  - destruct (decide (j < 0)%nat); [lia|]. by destruct j.
  - destruct j as [|j]; cbn [lookup list_lookup].
    + destruct (decide (0 < S k)%nat); [|lia]. by rewrite Z.add_0_r.
    + change ((deref Nm a i :: visit Nm a (wrap (i + 1)) k) !! S j)
        with (visit Nm a (wrap (i + 1)) k !! j).
      rewrite wrap_small by (unfold is_size_t; lia).
      rewrite IH by lia.
      destruct (decide (j < k)%nat); destruct (decide (S j < S k)%nat);
        try lia; try done.
      do 2 f_equal. lia.
Qed.

(** X14. A range-based [for] over a fifo whose tail is below [Nm] visits
    the queue: every element that is in the fifo, oldest first, and nothing
    else; and it leaves the fifo without elements. *)
Theorem range_for_visits_queue s :
  normal Nm s ->
  fst (range_for Nm s) = Some <$> contents s /\
  size (snd (range_for Nm s)) = 0 /\
  contents (snd (range_for Nm s)) = [].
Proof.
  intros Hn. destruct (normal_facts Nm Nm_max s Hn) as (_ & Hsz & _ & Hb).
  destruct Hn as (Hlen & Ht & Hh).
  unfold range_for, begin, end_. cbn [fst snd elems].
  assert (wrap (m_tail s + size s) = m_head s) as E
    by (unfold size in *; wrap_lia).
  rewrite E. fold (size s).
  assert (size {| elems := elems s; m_head := m_head s; m_tail := m_head s |}
          = 0) as E0 by (unfold size; simpl; by rewrite Z.sub_diag).
  split; [|split; [done | unfold contents; by rewrite E0]].
  apply list_eq; intros j.
  rewrite visit_lookup by wrap_lia.
  rewrite list_lookup_fmap. unfold contents.
  rewrite window_lookup by lia.
  case_decide; [|done].
  unfold deref, array_get. rewrite mod_one_turn by lia.
  assert (Z.to_nat (if m_tail s + Z.of_nat j <? Nm
                    then m_tail s + Z.of_nat j
                    else m_tail s + Z.of_nat j - Nm)
          = slot (length (elems s)) (Z.to_nat (m_tail s) + j)) as Hslot.
  { unfold slot. destruct (Z.ltb_spec (m_tail s + Z.of_nat j) Nm);
      case_decide; lia. }
  destruct (Z.leb_spec 0 (if m_tail s + Z.of_nat j <? Nm
                          then m_tail s + Z.of_nat j
                          else m_tail s + Z.of_nat j - Nm)) as [_|Hneg];
    [|destruct (Z.ltb_spec (m_tail s + Z.of_nat j) Nm); lia].
  rewrite Hslot.
  destruct (lookup_lt_is_Some_2 (elems s)
              (slot (length (elems s)) (Z.to_nat (m_tail s) + j)))
    as [x Hx]; [unfold slot; case_decide; lia|].
  by rewrite Hx.
Qed.

Lemma exec_refines_queue c s :
  normal Nm s -> bulk_call c = true ->
  match queue_exec Nm c (contents s) with
  | Some (r, q') =>
      exists s', exec Nm c s = Ret r s' /\ normal Nm s' /\ contents s' = q'
  | None => exec Nm c s = OutOfRange s
  end.
Proof.
  intros Hn Hc. destruct (normal_facts Nm Nm_max s Hn) as (_ & Hsz & Hfr & Hb).
  pose proof (contents_length Nm Nm_max s Hn) as Hl.
  destruct c as [|v| |vs|n| |]; try discriminate; cbn [queue_exec exec].
  - exists (clear s). destruct Hn as (Hlen & _).
    split; [done|]. split; [unfold normal; simpl; lia | done].
  - destruct (Z.ltb_spec (Z.of_nat (length (contents s))) Nm) as [Hlt|Hge].
    + destruct (push_normal Nm Nm_pos Nm_max v s Hn)
        as (s' & Hp & Hn' & Hc' & _); [lia|].
      exists s'. by rewrite Hp.
    + by rewrite (push_full Nm Nm_pos Nm_max s v Hn) by lia.
  - destruct (contents s) as [|x q] eqn:Hq.
    + simpl in Hl. by rewrite (pop_empty Nm Nm_max s Hn) by lia.
    + destruct (pop_normal Nm Nm_pos Nm_max s x q Hn Hq)
        as (Hp & Hn' & Hc' & _).
      eexists. by rewrite Hp.
  - destruct (Z.leb_spec (Z.of_nat (length vs))
                (Nm - Z.of_nat (length (contents s)))) as [Hle|Hgt].
    + destruct (push_list_normal Nm Nm_pos Nm_max vs s Hn)
        as (s' & Hp & Hn' & Hc' & _); [lia|].
      exists s'. by rewrite Hp.
    + unfold push_list.
      by destruct (Z.ltb_spec (free Nm s) (Z.of_nat (length vs))); [|lia].
  - simpl in Hc. apply Z.leb_le in Hc.
    destruct (Z.ltb_spec (Z.of_nat (length (contents s))) n) as [Hlt|Hge].
    + unfold pop_list.
      destruct (Z.ltb_spec 0 n); [|lia].
      by destruct (Z.ltb_spec (size s) n); [|lia].
    + rewrite (pop_list_normal Nm Nm_pos Nm_max n s Hn) by lia.
      cbn [omap_ret].
      destruct (increment_tail_normal Nm Nm_pos Nm_max
                  (if n =? 0 then size s else n) s Hn) as (Hn' & Hc' & _);
        [destruct (Z.eqb_spec n 0); lia|].
      eexists. split; [|split; [done|]].
      * do 3 f_equal. destruct (Z.eqb_spec n 0); lia.
      * rewrite Hc'. f_equal. destruct (Z.eqb_spec n 0); lia.
Qed.

(** X16. The fifo refines a bounded queue under all its enqueueing and
    dequeueing calls, bulk and single, in any mix. Started on a fifo whose
    tail is below [Nm], a sequence of [clear], [push], [pop], [push_list]
    and [pop_list] calls returns exactly the values that a list-based queue
    of capacity [Nm], started on the fifo's elements, returns, and leaves
    that queue's elements in the fifo; it throws exactly when that queue
    overflows or underflows, and it never touches a slot outside the
    array. *)
Theorem fifo_refines_queue cs s :
  normal Nm s -> forallb bulk_call cs = true ->
  match queue_run Nm cs (contents s) with
  | Some (outs, q') =>
      exists s', run Nm cs s = Ret outs s' /\ normal Nm s' /\ contents s' = q'
  | None => exists s', run Nm cs s = OutOfRange s'
  end.
Proof.
  revert s. induction cs as [|c cs IH]; intros s Hn Hcs.
  - exists s. done.
  - simpl in Hcs. apply andb_true_iff in Hcs as [Hc Hcs].
    pose proof (exec_refines_queue c s Hn Hc) as He.
    cbn [queue_run run].
    destruct (queue_exec Nm c (contents s)) as [[r q1]|].
    + destruct He as (s1 & He & Hn1 & Hc1). rewrite He.
      specialize (IH s1 Hn1 Hcs). rewrite Hc1 in IH.
      destruct (queue_run Nm cs q1) as [[outs q2]|].
      * destruct IH as (s' & Hr & Hn' & Hc'). exists s'. by rewrite Hr.
      * destruct IH as (s' & Hr). exists s'. by rewrite Hr.
    + exists s. by rewrite He.
Qed.
End FifoBulk.

(** ** Two summaries *)

Section Summaries.
Context {T : Type}.
Variable Nm : Z.
Hypothesis Nm_pos : 0 < Nm.
Hypothesis Nm_max : Nm < 2 ^ 63.

(** X17. What [get] checks. On a buffer of [Nm] slots, [get(n)] throws
    exactly when [n] is above the size or not below [Nm]; it returns the
    content of slot [n] at every other index, the index equal to the size
    included; and it never changes the buffer. *)
Theorem get_checks_above_size (b : Buffer.buffer (T := T)) (n : Z) :
  Buffer.wf Nm b -> 0 <= n ->
  ((exists b', Buffer.get Nm n b = OutOfRange b')
   <-> Buffer.m_used b < n \/ Nm <= n) /\
  (n <= Buffer.m_used b -> n < Nm ->
   exists x, Buffer.elems b !! Z.to_nat n = Some x /\
             Buffer.get Nm n b = Ret x b) /\
  (forall b', Buffer.get Nm n b = OutOfRange b' -> b' = b).
Proof.
  intros Hwf Hn. split; [by apply get_throws_iff|].
  split; [|intros b'; apply get_throws_unchanged].
  intros Hle Hlt. destruct Hwf as [Hlen _].
  destruct (lookup_lt_is_Some_2 (Buffer.elems b) (Z.to_nat n)) as [x Hx];
    [lia|].
  exists x. split; [done|].
  unfold Buffer.get, Buffer.at_, array_get.
  destruct (Z.ltb_spec (Buffer.m_used b) n); [lia|].
  destruct (Z.leb_spec Nm n); [lia|].
  destruct (Z.leb_spec 0 n); [|lia].
  by rewrite Hx.
Qed.

(** X18. Without [end()] the cursors stay normalised: in every state a
    fifo reaches through [clear], [push], [pop], [push_list], [pop_list]
    and [begin], the tail is in [0, Nm), the head is at most [Nm] ahead of
    it, so below [2 * Nm], and [size()] is the exact difference of the two
    cursors. *)
Theorem queue_calls_keep_cursors (s : Fifo.fifo (T := T)) :
  Fifo.reachable_via Nm Fifo.queue_call s ->
  0 <= Fifo.m_tail s < Nm /\
  Fifo.m_tail s <= Fifo.m_head s <= Fifo.m_tail s + Nm /\
  Fifo.m_head s < 2 * Nm /\
  Fifo.size s = Fifo.m_head s - Fifo.m_tail s /\
  Z.of_nat (length (Fifo.contents s)) = Fifo.size s.
Proof.
  intros Hr. apply (queue_calls_keep_normal Nm Nm_pos Nm_max) in Hr.
  destruct (normal_facts Nm Nm_max s Hr) as (_ & Hsz & _).
  pose proof (contents_length Nm Nm_max s Hr) as Hl.
  destruct Hr as (_ & Ht & Hh). split_and!; try done; lia.
Qed.
End Summaries.

(** ** Concrete runs of the further properties *)

Section BufferExamples.
Import Buffer.

Lemma get_checks_above_size_witness :
  let b := {| elems := [1; 2; 0]; m_used := 2 |} in
  wf 3 b /\ 0 <= 2 /\
  exists x, elems b !! Z.to_nat 2 = Some x /\ get 3 2 b = Ret x b.
Proof.
  intros b.
  assert (wf 3 b) as Hwf
    by (unfold wf, is_size_t, size_t_modulus; simpl; lia).
  split; [exact Hwf|]. split; [lia|].
  apply (get_checks_above_size 3 b 2 Hwf); simpl; lia.
Defined.

Lemma push_back_appends_witness :
  let b := {| elems := [1; 2; 0]; m_used := 2 |} in
  bounded 3 b /\
  exists b' l,
    push_back 3 9 b = Ret tt b' /\ bounded 3 b' /\
    iterate b = Some l /\ iterate b' = Some (l ++ [9]) /\
    size b' = size b + 1 /\
    forall n, n <> m_used b -> subscript n b' = subscript n b.
Proof.
  intros b.
  assert (bounded 3 b) as Hb by (unfold bounded; simpl; lia).
  split; [exact Hb|].
  apply (push_back_appends 3 ltac:(reflexivity) 9 b Hb). simpl. lia.
Defined.

Lemma pop_back_removes_last_witness :
  let b := {| elems := [1; 2; 0]; m_used := 2 |} in
  bounded 3 b /\ iterate b = Some ([1] ++ [2]) /\
  exists b', pop_back 3 b = Ret 2 b' /\ bounded 3 b' /\
             iterate b' = Some [1] /\ elems b' = elems b /\
             size b' = size b - 1.
Proof.
  intros b.
  assert (bounded 3 b) as Hb by (unfold bounded; simpl; lia).
  split; [exact Hb|]. split; [reflexivity|].
  apply (pop_back_removes_last 3 ltac:(reflexivity) b _ Hb eq_refl).
  reflexivity.
Defined.

Lemma push_back_pop_back_lifo_witness :
  let b := {| elems := [1; 0; 0; 0]; m_used := 1 |} in
  bounded 4 b /\ Z.of_nat (length [7; 8; 9]) <= 4 - m_used b /\
  exists b1 b2 l,
    iterate b = Some l /\
    run 4 (PushBack <$> [7; 8; 9]) b
      = Ret (replicate (length [7; 8; 9]) VUnit) b1 /\
    iterate b1 = Some (l ++ [7; 8; 9]) /\
    size b1 = size b + Z.of_nat (length [7; 8; 9]) /\
    run 4 (replicate (length [7; 8; 9]) PopBack) b1
      = Ret (VElem <$> reverse [7; 8; 9]) b2 /\
    iterate b2 = Some l /\ size b2 = size b.
Proof.
  intros b.
  assert (bounded 4 b) as Hb by (unfold bounded; simpl; lia).
  assert (Z.of_nat (length [7; 8; 9]) <= 4 - m_used b) as Hle
    by (simpl; lia).
  split; [exact Hb|]. split; [exact Hle|].
  apply (push_back_pop_back_lifo 4 ltac:(reflexivity) [7; 8; 9] b Hb Hle).
Defined.

Lemma buffer_calls_keep_bounded_witness :
  let b := {| elems := [5; 6; 0]; m_used := 1 |} in
  reachable 3 b /\
  Z.of_nat (length (elems b)) = 3 /\ 0 <= size b <= 3 /\
  size b + free 3 b = 3.
Proof.
  intros b.
  assert (reachable 3 b) as Hr.
  { assert (reachable 3 (buffer_new [0; 0; 0])) as R0
      by (apply reach_new; reflexivity).
    assert (reachable 3 {| elems := [5; 0; 0]; m_used := 1 |}) as R1
      by (apply (reach_call 3 _ (Assign 0 5) VUnit _ R0); reflexivity).
    assert (reachable 3 {| elems := [5; 6; 0]; m_used := 2 |}) as R2
      by (apply (reach_call 3 _ (PushBack 6) VUnit _ R1); reflexivity).
    apply (reach_call 3 _ PopBack (VElem 6) _ R2); reflexivity. }
  split; [exact Hr|].
  apply (buffer_calls_keep_bounded 3 ltac:(reflexivity) b Hr).
Defined.

Lemma fill_all_fills_witness :
  let b := {| elems := [1; 2; 0]; m_used := 2 |} in
  Z.of_nat (length (elems b)) = 3 /\
  exists b',
    fill_all 3 7 b = Ret tt b' /\
    size b' = 3 /\ free 3 b' = 0 /\
    iterate b' = Some (replicate (Z.to_nat 3) 7) /\
    forall n, 0 <= n < 3 -> get 3 n b' = Ret 7 b'.
Proof.
  intros b. split; [reflexivity|].
  apply (fill_all_fills 3 7 b). reflexivity.
Defined.

Lemma fill_used_fills_witness :
  let b := {| elems := [1; 2; 0]; m_used := 5 |} in
  wf 3 b /\ 3 < m_used b /\ fill_used 7 b = Undefined.
Proof.
  intros b.
  assert (wf 3 b) as Hwf
    by (unfold wf, is_size_t, size_t_modulus; simpl; lia).
  split; [exact Hwf|]. split; [simpl; lia|].
  apply (fill_used_fills 3 7 b Hwf). simpl. lia.
Defined.

Lemma assign_extends_witness :
  let b := {| elems := [1; 5; 6; 0]; m_used := 1 |} in
  bounded 4 b /\ 0 <= 2 /\
  exists b',
    assign 4 2 9 b = Ret tt b' /\ bounded 4 b' /\
    iterate b' =
      Some (<[Z.to_nat 2 := 9]>
              (take (Z.to_nat (Z.max (m_used b) (2 + 1))) (elems b))) /\
    forall m, m <> 2 -> subscript m b' = subscript m b.
Proof.
  intros b.
  assert (bounded 4 b) as Hb by (unfold bounded; simpl; lia).
  split; [exact Hb|]. split; [lia|].
  apply (assign_extends 4 ltac:(reflexivity) 2 9 b Hb); lia.
Defined.
End BufferExamples.

Section FifoExamples.
Import Fifo.

Lemma queue_calls_keep_cursors_witness :
  let s := {| elems := [4; 2; 3]; m_head := 1; m_tail := 0 |} in
  reachable_via 3 queue_call s /\
  0 <= m_tail s < 3 /\
  m_tail s <= m_head s <= m_tail s + 3 /\
  m_head s < 2 * 3 /\
  size s = m_head s - m_tail s /\
  Z.of_nat (length (contents s)) = size s.
Proof.
  intros s.
  assert (reachable_via 3 queue_call s) as Hr.
  { eapply (run_reachable 3 queue_call
              [Push 1; Push 2; Push 3; Pop; Push 4; PopList 2]
              (fifo_new [0; 0; 0]));
      [apply reach_new | |]; reflexivity. }
  split; [exact Hr|].
  apply (queue_calls_keep_cursors 3 ltac:(lia) ltac:(lia) s Hr).
Defined.

Lemma pop_outcomes_witness :
  let s := {| elems := [1; 2; 3]; m_head := 4; m_tail := 3 |} in
  wf 3 s /\ pop 3 s = Undefined.
Proof.
  intros s.
  assert (wf 3 s) as Hwf
    by (unfold wf, is_size_t, size_t_modulus; simpl; lia).
  split; [exact Hwf|].
  apply (pop_outcomes 3 ltac:(lia) s Hwf). simpl. lia.
Defined.

Lemma size_plus_free_witness :
  let s := {| elems := [1; 2; 3]; m_head := 3; m_tail := 3 |} in
  reachable 3 s /\ size s + free 3 s = 3.
Proof.
  intros s.
  assert (reachable 3 s) as Hr.
  { eapply (run_reachable 3 (fun _ => true)
              [Push 1; Push 2; Push 3; End_] (fifo_new [0; 0; 0]));
      [apply reach_new | |]; reflexivity. }
  split; [exact Hr|].
  apply (size_plus_free 3 ltac:(lia) ltac:(reflexivity) s Hr).
Defined.

Lemma second_class_agrees_witness :
  let s := fifo_new [0; 0; 0] in
  let cs := [PushB 1; PushB 2; PushB 3; PopB; PushB 4; PopB; TruncateB;
             PopB] in
  wf 3 s /\ forallb implemented_B cs = true /\
  run_B 3 cs s = run 3 (as_first <$> cs) s.
Proof.
  intros s cs.
  assert (wf 3 s) as Hwf
    by (unfold wf, is_size_t, size_t_modulus; simpl; lia).
  split; [exact Hwf|]. split; [reflexivity|].
  apply (second_class_agrees 3 ltac:(lia) ltac:(reflexivity) cs s Hwf).
  reflexivity.
Defined.

Lemma push_list_as_pushes_witness :
  let s := {| elems := [1; 2; 3; 4; 0]; m_head := 4; m_tail := 4 |} in
  normal 5 s /\ Z.of_nat (length [7; 8; 9]) <= free 5 s /\
  exists s',
    push_list 5 [7; 8; 9] s = Ret tt s' /\
    run 5 (Push <$> [7; 8; 9]) s
      = Ret (replicate (length [7; 8; 9]) VUnit) s'.
Proof.
  intros s.
  assert (normal 5 s) as Hn by (unfold normal; simpl; lia).
  assert (Z.of_nat (length [7; 8; 9]) <= free 5 s) as Hle
    by (vm_compute; discriminate).
  split; [exact Hn|]. split; [exact Hle|].
  apply (push_list_as_pushes 5 ltac:(lia) ltac:(lia) [7; 8; 9] s Hn Hle).
Defined.

Lemma pop_list_as_pops_witness :
  let s := {| elems := [8; 9; 3; 4; 7]; m_head := 7; m_tail := 4 |} in
  normal 5 s /\ 0 < 3 <= size s /\
  exists out s',
    pop_list 5 3 s = Ret out s' /\
    run 5 (replicate (Z.to_nat 3) Pop) s = Ret (VElem <$> out) s'.
Proof.
  intros s.
  assert (normal 5 s) as Hn by (unfold normal; simpl; lia).
  assert (0 < 3 <= size s) as Hle by (vm_compute; split; [reflexivity | discriminate]).
  split; [exact Hn|]. split; [exact Hle|].
  apply (pop_list_as_pops 5 ltac:(lia) ltac:(lia) 3 s Hn Hle).
Defined.

Lemma pop_list_default_drains_witness :
  let s := {| elems := [8; 9; 3; 4; 7]; m_head := 7; m_tail := 4 |} in
  normal 5 s /\
  exists s',
    pop_list 5 0 s = Ret (contents s) s' /\
    normal 5 s' /\ empty s' = true /\ contents s' = [].
Proof.
  intros s.
  assert (normal 5 s) as Hn by (unfold normal; simpl; lia).
  split; [exact Hn|].
  apply (pop_list_default_drains 5 ltac:(lia) ltac:(lia) s Hn).
Defined.

Lemma range_for_visits_queue_witness :
  let s := {| elems := [8; 9; 3; 4; 7]; m_head := 7; m_tail := 4 |} in
  normal 5 s /\
  fst (range_for 5 s) = Some <$> contents s /\
  size (snd (range_for 5 s)) = 0 /\
  contents (snd (range_for 5 s)) = [].
Proof.
  intros s.
  assert (normal 5 s) as Hn by (unfold normal; simpl; lia).
  split; [exact Hn|].
  apply (range_for_visits_queue 5 ltac:(lia) ltac:(lia) s Hn).
Defined.


Lemma fifo_refines_queue_witness :
  let s := fifo_new [0; 0; 0; 0; 0] in
  let cs := [Push 1; PushList [2; 3; 4]; Pop; PopList 2; PushList [5; 6; 7];
             PopList 0; Pop] in
  normal 5 s /\ forallb bulk_call cs = true /\
  match queue_run 5 cs (contents s) with
  | Some (outs, q') =>
      exists s', run 5 cs s = Ret outs s' /\ normal 5 s' /\ contents s' = q'
  | None => exists s', run 5 cs s = OutOfRange s'
  end.
Proof.
  intros s cs.
  assert (normal 5 s) as Hn by (unfold normal; simpl; lia).
  split; [exact Hn|]. split; [reflexivity|].
  apply (fifo_refines_queue 5 ltac:(lia) ltac:(lia) cs s Hn). reflexivity.
Defined.
End FifoExamples.
